(** * A recursive-descent JSON parser: lexer, parser and value model

    Shallow embedding of [main.go].  The lexer keeps a cursor
    ([input], [pos], [current]) exactly as the Go struct does, the parser
    keeps the lexer and one token of lookahead, and a Go [panic] is an
    outcome of its own ([Panic]) next to a normal return ([Ok]).

    Go strings are byte strings: they are modelled by [string], whose
    characters are the 256 values of [ascii].  A [rune] is an integer;
    the lexer only ever stores [rune(input[pos])], a value in 0..255, or 0
    at the end of the input. *)

From Stdlib Require Import ZArith String Ascii Bool Lia.
From Stdlib Require Import Floats.SpecFloat.
From stdpp Require Import base option list gmap strings.

Local Set Warnings "-register-all".
Local Open Scope string_scope.
Local Open Scope Z_scope.

(** ** Outcomes of a call *)

(** A call returns normally, or panics with a message, or (in this model
    only) exhausts the recursion budget given to the parser. *)
Inductive result (A : Type) : Type :=
  | Ok (a : A)
  | Panic (msg : string)
  | OutOfFuel.
Arguments Ok {A} a.
Arguments Panic {A} msg.
Arguments OutOfFuel {A}.

Definition bind {A B : Type} (r : result A) (k : A -> result B) : result B :=
  match r with
  | Ok a => k a
  | Panic msg => Panic msg
  | OutOfFuel => OutOfFuel
  end.

Notation "x <- r ;; k" := (bind r (fun x => k))
  (at level 100, r at next level, right associativity).

Definition returns {A : Type} (r : result A) : Prop := exists a, r = Ok a.
Definition panics {A : Type} (r : result A) : Prop := exists msg, r = Panic msg.

(** ** Bytes, runes and strings *)

Definition rune := Z.

(** [rune(b)] for a byte [b]. *)
Definition rune_of_byte (b : ascii) : rune := Z.of_N (N_of_ascii b).
Definition byte_of_Z (z : Z) : ascii := ascii_of_N (Z.to_N z).

Definition len (s : string) : Z := Z.of_nat (String.length s).

(** [s[i]] converted to a rune.  The only caller guards [i < len(s)], and
    [i] is never negative. *)
Definition index (s : string) (i : Z) : rune :=
  match String.get (Z.to_nat i) s with
  | Some b => rune_of_byte b
  | None => 0
  end.

(** [s[lo:hi]]; Go panics when the bounds are out of range. *)
Definition slice (s : string) (lo hi : Z) : result string :=
  if (0 <=? lo) && (lo <=? hi) && (hi <=? len s)
  then Ok (substring (Z.to_nat lo) (Z.to_nat (hi - lo)) s)
  else Panic "slice bounds out of range".

(** Rune literals of the source. *)
Definition r_lbrace : rune := 123.    (* '{' *)
Definition r_rbrace : rune := 125.    (* '}' *)
Definition r_lbracket : rune := 91.   (* '[' *)
Definition r_rbracket : rune := 93.   (* ']' *)
Definition r_colon : rune := 58.      (* ':' *)
Definition r_comma : rune := 44.      (* ',' *)
Definition r_quote : rune := 34.      (* the double quote *)
Definition r_minus : rune := 45.      (* '-' *)
Definition r_dot : rune := 46.        (* '.' *)

(** *** Go standard library: package [unicode]

    Modelled from the package documentation for the Latin-1 range
    (U+0000..U+00FF), the only runes the lexer produces. *)

(** '\t', '\n', '\v', '\f', '\r', ' ', U+0085 (NEL), U+00A0 (NBSP). *)
Definition IsSpace (r : rune) : bool :=
  ((9 <=? r) && (r <=? 13)) || (r =? 32) || (r =? 133) || (r =? 160).

Definition IsDigit (r : rune) : bool := (48 <=? r) && (r <=? 57).

(** Latin-1 letters: A-Z, a-z, U+00AA, U+00B5, U+00BA, U+00C0..U+00D6,
    U+00D8..U+00F6, U+00F8..U+00FF. *)
Definition IsLetter (r : rune) : bool :=
  ((65 <=? r) && (r <=? 90)) || ((97 <=? r) && (r <=? 122))
  || (r =? 170) || (r =? 181) || (r =? 186)
  || ((192 <=? r) && (r <=? 214)) || ((216 <=? r) && (r <=? 246))
  || ((248 <=? r) && (r <=? 255)).

(** *** Go standard library: [strings.Builder.WriteRune]

    Appends the UTF-8 encoding of the rune; an invalid rune is written as
    U+FFFD. *)
Definition utf8_encode (r : rune) : string :=
  let b z := byte_of_Z z in
  let cont z := b (Z.lor 128 (Z.land z 63)) in
  if (0 <=? r) && (r <=? 127) then String (b r) ""
  else if (0 <=? r) && (r <=? 2047) then
    String (b (Z.lor 192 (Z.shiftr r 6))) (String (cont r) "")
  else if (r <? 0) || (1114111 <? r) || ((55296 <=? r) && (r <=? 57343)) then
    String (b 239) (String (b 191) (String (b 189) ""))
  else if r <=? 65535 then
    String (b (Z.lor 224 (Z.shiftr r 12)))
      (String (cont (Z.shiftr r 6)) (String (cont r) ""))
  else
    String (b (Z.lor 240 (Z.shiftr r 18)))
      (String (cont (Z.shiftr r 12))
         (String (cont (Z.shiftr r 6)) (String (cont r) ""))).

Definition WriteRune (sb : string) (r : rune) : string := sb +:+ utf8_encode r.

(** ** Tokens *)

Inductive TokenType : Type :=
  | TokenString
  | TokenNumber
  | TokenBoolean
  | TokenNull
  | TokenLeftBrace
  | TokenRightBrace
  | TokenLeftBracket
  | TokenRightBracket
  | TokenColon
  | TokenComma
  | TokenEOF.

Global Instance TokenType_eq_dec : EqDecision TokenType.
Proof. solve_decision. Defined.

Record Token : Type := mkToken { Type_ : TokenType; Value : string }.

Global Instance Token_eq_dec : EqDecision Token.
Proof. solve_decision. Defined.

(** ** The lexer *)

Record Lexer : Type := mkLexer { input : string; pos : Z; current : rune }.

Definition advance (l : Lexer) : Lexer :=
  if pos l <? len (input l)
  then mkLexer (input l) (pos l + 1) (index (input l) (pos l))
  else mkLexer (input l) (pos l) 0.

Definition NewLexer (s : string) : Lexer := advance (mkLexer s 0 0).

(** Every loop of the lexer advances the cursor once per iteration and
    stops on the rune 0, which [advance] stores once the input is
    exhausted.  [budget l] bounds the number of iterations still possible
    from [l], so the loops below are total and never stop for lack of it
    (lemma [scan_stops]). *)
Definition budget (l : Lexer) : nat := S (S (Z.to_nat (len (input l) - pos l))).

(** [for cond(l.current) { l.advance() }] *)
Fixpoint scan (cond : rune -> bool) (n : nat) (l : Lexer) : Lexer :=
  match n with
  | O => l
  | S n' => if cond (current l) then scan cond n' (advance l) else l
  end.

Definition skipWhitespace (l : Lexer) : Lexer := scan IsSpace (budget l) l.

Definition inString (r : rune) : bool := negb (r =? r_quote) && negb (r =? 0).

(** [for l.current != quote && l.current != 0 { sb.WriteRune(l.current); l.advance() }] *)
Fixpoint readString_loop (n : nat) (sb : string) (l : Lexer) : string * Lexer :=
  match n with
  | O => (sb, l)
  | S n' =>
      if inString (current l)
      then readString_loop n' (WriteRune sb (current l)) (advance l)
      else (sb, l)
  end.

Definition readString (l : Lexer) : Token * Lexer :=
  let l1 := advance l in
  let '(sb, l2) := readString_loop (budget l1) "" l1 in
  (mkToken TokenString sb, advance l2).

Definition inNumber (r : rune) : bool :=
  IsDigit r || (r =? r_dot) || (r =? r_minus).

Definition readNumber (l : Lexer) : result (Token * Lexer) :=
  let start := pos l - 1 in
  let l' := scan inNumber (budget l) l in
  value <- slice (input l') start (pos l' - 1) ;;
  Ok (mkToken TokenNumber value, l').

Definition readKeyword (l : Lexer) : result (Token * Lexer) :=
  let start := pos l - 1 in
  let l' := scan IsLetter (budget l) l in
  value <- slice (input l') start (pos l' - 1) ;;
  if decide (value = "true") then Ok (mkToken TokenBoolean value, l')
  else if decide (value = "false") then Ok (mkToken TokenBoolean value, l')
  else if decide (value = "null") then Ok (mkToken TokenNull value, l')
  else Panic ("Unexpected keyword: " +:+ value).

Definition nextToken (l0 : Lexer) : result (Token * Lexer) :=
  let l := skipWhitespace l0 in
  let c := current l in
  if c =? r_lbrace then Ok (mkToken TokenLeftBrace "{", advance l)
  else if c =? r_rbrace then Ok (mkToken TokenRightBrace "}", advance l)
  else if c =? r_lbracket then Ok (mkToken TokenLeftBracket "[", advance l)
  else if c =? r_rbracket then Ok (mkToken TokenRightBracket "]", advance l)
  else if c =? r_colon then Ok (mkToken TokenColon ":", advance l)
  else if c =? r_comma then Ok (mkToken TokenComma ",", advance l)
  else if c =? r_quote then Ok (readString l)
  else if IsDigit c || (c =? r_minus) then readNumber l
  else if IsLetter c then readKeyword l
  else Ok (mkToken TokenEOF "", l).

(** ** Values *)

(** The dynamic values [parseJSON] builds: a Go [string], [float64],
    [bool], [nil], [map[string]interface{}] or [[]interface{}].  A
    [float64] is an IEEE 754 binary64 value ([spec_float] at precision 53
    and maximal exponent 1024). *)
Inductive value : Type :=
  | VString (s : string)
  | VNumber (f : spec_float)
  | VBool (b : bool)
  | VNil
  | VObject (m : gmap string value)
  | VArray (a : list value).

(** *** Go standard library: [strconv.ParseFloat(s, 64)]

    Modelled from the package documentation for the arguments the parser
    can pass, which consist of digits, '.' and '-' only (lemma
    [readNumber_alphabet]): an optional sign, then digits with at most one
    '.', at least one digit in all, and nothing after.  The result is the
    binary64 value nearest to the decimal (ties to even); it is infinite,
    with a range error, when the decimal is too large; it is 0, with a
    syntax error, when the text is not well formed.  Exponents, hexadecimal
    forms, "inf", "nan" and underscores need other characters and are not
    covered. *)
Inductive NumError : Type := ErrSyntax | ErrRange.

Fixpoint digits (s : string) (acc : Z) (n : nat) : Z * nat * string :=
  match s with
  | String c s' =>
      if IsDigit (rune_of_byte c)
      then digits s' (10 * acc + (rune_of_byte c - 48)) (S n)
      else (acc, n, s)
  | EmptyString => (acc, n, s)
  end.

(** The binary64 value nearest to [(-1)^neg * m / 10^frac]. *)
Definition decimal_to_float64 (neg : bool) (m : Z) (frac : nat) : spec_float :=
  match m with
  | Zpos p =>
      SFdiv 53 1024 (S754_finite neg p 0)
        (S754_finite false (Z.to_pos (10 ^ Z.of_nat frac)) 0)
  | _ => S754_zero neg
  end.

Definition ParseFloat (s : string) : spec_float * option NumError :=
  let '(neg, s1) :=
    match s with
    | String c r =>
        if rune_of_byte c =? r_minus then (true, r)
        else if rune_of_byte c =? 43 then (false, r)
        else (false, s)
    | EmptyString => (false, s)
    end in
  let '(m1, n1, s2) := digits s1 0 0%nat in
  let '(m2, n2, s3) :=
    match s2 with
    | String c r =>
        if rune_of_byte c =? r_dot then digits r m1 0%nat else (m1, 0%nat, s2)
    | EmptyString => (m1, 0%nat, s2)
    end in
  if (Nat.eqb (n1 + n2) 0) || negb (bool_decide (s3 = ""))
  then (S754_zero false, Some ErrSyntax)
  else
    match decimal_to_float64 neg m2 n2 with
    | S754_infinity sg => (S754_infinity sg, Some ErrRange)
    | f => (f, None)
    end.

(** ** The parser *)

Record Parser : Type := mkParser { lexer : Lexer; token : Token }.

(** [p.nextToken()]: the lookahead is replaced by the next token. *)
Definition p_nextToken (p : Parser) : result Parser :=
  r <- nextToken (lexer p) ;;
  Ok (mkParser (snd r) (fst r)).

Definition NewParser (l : Lexer) : result Parser :=
  p_nextToken (mkParser l (mkToken TokenString "")).

Definition tokenIs (p : Parser) (t : TokenType) : bool :=
  bool_decide (Type_ (token p) = t).

(** The three mutually recursive routines and their two loops.  [fuel]
    bounds the depth of the calls; [parseJSON_good] shows that the amount
    [parse] gives is always enough. *)
Fixpoint parseValue (fuel : nat) (p : Parser) : result (value * Parser) :=
  match fuel with
  | O => OutOfFuel
  | S f =>
      match Type_ (token p) with
      | TokenString =>
          let val := Value (token p) in
          p' <- p_nextToken p ;;
          Ok (VString val, p')
      | TokenNumber =>
          let val := fst (ParseFloat (Value (token p))) in
          p' <- p_nextToken p ;;
          Ok (VNumber val, p')
      | TokenBoolean =>
          let val := bool_decide (Value (token p) = "true") in
          p' <- p_nextToken p ;;
          Ok (VBool val, p')
      | TokenNull =>
          p' <- p_nextToken p ;;
          Ok (VNil, p')
      | TokenLeftBrace =>
          r <- parseObject f p ;;
          Ok (VObject (fst r), snd r)
      | TokenLeftBracket =>
          r <- parseArray f p ;;
          Ok (VArray (fst r), snd r)
      | _ => Panic ("Unexpected token: " +:+ Value (token p))
      end
  end

with parseObject (fuel : nat) (p : Parser) : result (gmap string value * Parser) :=
  match fuel with
  | O => OutOfFuel
  | S f =>
      p1 <- p_nextToken p ;;
      r <- parseObject_loop f ∅ p1 ;;
      p2 <- p_nextToken (snd r) ;;
      Ok (fst r, p2)
  end

with parseObject_loop (fuel : nat) (obj : gmap string value) (p : Parser)
  : result (gmap string value * Parser) :=
  match fuel with
  | O => OutOfFuel
  | S f =>
      if tokenIs p TokenRightBrace then Ok (obj, p)
      else if negb (tokenIs p TokenString) then Panic "Expected string key in object"
      else
        let key := Value (token p) in
        p1 <- p_nextToken p ;;
        if negb (tokenIs p1 TokenColon) then Panic "Expected ':' after key"
        else
          p2 <- p_nextToken p1 ;;
          r <- parseValue f p2 ;;
          let obj' := <[key := fst r]> obj in
          p3 <- (if tokenIs (snd r) TokenComma then p_nextToken (snd r)
                 else if negb (tokenIs (snd r) TokenRightBrace)
                      then Panic "Expected ',' or '}' in object"
                      else Ok (snd r)) ;;
          parseObject_loop f obj' p3
  end

with parseArray (fuel : nat) (p : Parser) : result (list value * Parser) :=
  match fuel with
  | O => OutOfFuel
  | S f =>
      p1 <- p_nextToken p ;;
      r <- parseArray_loop f [] p1 ;;
      p2 <- p_nextToken (snd r) ;;
      Ok (fst r, p2)
  end

with parseArray_loop (fuel : nat) (arr : list value) (p : Parser)
  : result (list value * Parser) :=
  match fuel with
  | O => OutOfFuel
  | S f =>
      if tokenIs p TokenRightBracket then Ok (arr, p)
      else
        r <- parseValue f p ;;
        let arr' := (arr ++ [fst r])%list in
        p3 <- (if tokenIs (snd r) TokenComma then p_nextToken (snd r)
               else if negb (tokenIs (snd r) TokenRightBracket)
                    then Panic "Expected ',' or ']' in array"
                    else Ok (snd r)) ;;
        parseArray_loop f arr' p3
  end.

Definition parseJSON (fuel : nat) (p : Parser) : result (value * Parser) :=
  match Type_ (token p) with
  | TokenLeftBrace =>
      r <- parseObject fuel p ;;
      Ok (VObject (fst r), snd r)
  | TokenLeftBracket =>
      r <- parseArray fuel p ;;
      Ok (VArray (fst r), snd r)
  | _ => Panic "Invalid JSON start"
  end.

(** The pipeline of [main], for an arbitrary input: a lexer, a parser,
    one call of [parseJSON]. *)
Definition parse_fuel (s : string) : nat := 3 * String.length s + 6.

Definition parse (s : string) : result value :=
  p <- NewParser (NewLexer s) ;;
  r <- parseJSON (parse_fuel s) p ;;
  Ok (fst r).

(** Inputs are written with an apostrophe where the document has a double
    quote. *)
Fixpoint dq (s : string) : string :=
  match s with
  | String c s' =>
      String (if Ascii.eqb c "'"%char then byte_of_Z r_quote else c) (dq s')
  | EmptyString => EmptyString
  end.


(** * Vocabulary of the statements

    The predicates and auxiliary functions in which the properties below
    are stated. *)

(** ** The cursor

    [At l pre rem] describes the lexer states that can arise: the input is
    [pre +:+ rem], the bytes of [pre] are behind the cursor, and [rem] is
    what is still to be read, its first byte being held in [current].
    When [rem] is empty the input is exhausted and [current] is 0. *)

Definition head_rune (s : string) : rune :=
  match s with
  | String c _ => rune_of_byte c
  | EmptyString => 0
  end.

Definition At (l : Lexer) (pre rem : string) : Prop :=
  input l = pre +:+ rem /\
  current l = head_rune rem /\
  pos l = match rem with
          | String _ _ => len pre + 1
          | EmptyString => len pre
          end.

Fixpoint all_runes (P : rune -> bool) (s : string) : bool :=
  match s with
  | String c s' => P (rune_of_byte c) && all_runes P s'
  | EmptyString => true
  end.

(** The longest prefix whose bytes satisfy [P], and the rest. *)
Fixpoint span (P : rune -> bool) (s : string) : string * string :=
  match s with
  | String c s' =>
      if P (rune_of_byte c)
      then (String c (fst (span P s')), snd (span P s'))
      else (EmptyString, s)
  | EmptyString => (EmptyString, EmptyString)
  end.

(** ** What the scanners return *)

(** What the loop of [readString] writes for the bytes it passes over:
    each byte, taken as a rune, in UTF-8. *)
Fixpoint written (s : string) : string :=
  match s with
  | String c s' => utf8_encode (rune_of_byte c) +:+ written s'
  | EmptyString => EmptyString
  end.

Definition IsASCII (r : rune) : bool := r <? 128.

(** [s] without its last byte. *)
Fixpoint chop (s : string) : string :=
  match s with
  | String c EmptyString => EmptyString
  | String c s' => String c (chop s')
  | EmptyString => EmptyString
  end.

(** The text that [input[start : pos-1]] yields for a run: the run itself
    when a byte follows it, the run without its last byte when the run
    reaches the end of the input (there [advance] leaves [pos] alone). *)
Definition run_text (run rest : string) : string :=
  match rest with
  | String _ _ => run
  | EmptyString => chop run
  end.

(** The [switch] of [readKeyword] on the text of the run. *)
Definition keyword_result (value : string) (l' : Lexer) : result (Token * Lexer) :=
  if decide (value = "true") then Ok (mkToken TokenBoolean value, l')
  else if decide (value = "false") then Ok (mkToken TokenBoolean value, l')
  else if decide (value = "null") then Ok (mkToken TokenNull value, l')
  else Panic ("Unexpected keyword: " +:+ value).

(** The binary64 value of an integer. *)
Definition float64_of_Z (z : Z) : spec_float := binary_normalize 53 1024 z 0 false.

Definition quote : ascii := byte_of_Z r_quote.

(** ** Weights and outcomes of the parser *)

(** The weight of a parser state: the bytes still to be read, plus one
    for a lookahead that is not the end of input. *)
Definition tokw (p : Parser) : nat :=
  if decide (Type_ (token p) = TokenEOF) then 0%nat else 1%nat.

Definition Wf (p : Parser) (m : nat) : Prop :=
  exists pre rem, At (lexer p) pre rem /\ m = (String.length rem + tokw p)%nat.

(** The messages of the [panic] calls of the source. *)
Definition panic_message (msg : string) : Prop :=
  msg = "Invalid JSON start"
  \/ msg = "Expected string key in object"
  \/ msg = "Expected ':' after key"
  \/ msg = "Expected ',' or '}' in object"
  \/ msg = "Expected ',' or ']' in array"
  \/ (exists v, msg = "Unexpected token: " +:+ v)
  \/ (exists kw, msg = "Unexpected keyword: " +:+ kw).

Definition good {A : Type} (Q : A -> Prop) (r : result A) : Prop :=
  match r with
  | Ok a => Q a
  | Panic msg => panic_message msg
  | OutOfFuel => False
  end.

Definition below (m : nat) (p' : Parser) : Prop :=
  exists m', Wf p' m' /\ (m' < m)%nat.

Definition closes (t : TokenType) (m : nat) (p' : Parser) : Prop :=
  Type_ (token p') = t /\ exists m', Wf p' m' /\ (m' <= m)%nat.

(** ** Two parsers side by side *)

(** Whatever the first call returns, the second returns a related
    result. *)
Definition follows {A : Type} (R : A -> A -> Prop) (r1 r2 : result A) : Prop :=
  forall a1, r1 = Ok a1 -> exists a2, r2 = Ok a2 /\ R a1 a2.

Definition same_upto {A : Type} (PR : Parser -> Parser -> Prop)
    (x y : A * Parser) : Prop :=
  fst x = fst y /\ PR (snd x) (snd y).

Definition closed_upto {A : Type} (PR : Parser -> Parser -> Prop) (t : TokenType)
    (x y : A * Parser) : Prop :=
  same_upto PR x y /\ Type_ (token (snd x)) = t.

(** ** Documents as sequences of tokens

    A document seen the way the lexer cuts it: a sequence of lexemes, each
    preceded by a gap of white space, and a tail after the last one.  A
    string lexeme runs from a quote to the next quote; a number lexeme is a
    run of digits, '.' and '-'; a keyword is [true], [false] or [null]. *)

Inductive punct : Type :=
  | PLeftBrace | PRightBrace | PLeftBracket | PRightBracket | PColon | PComma.

Definition punct_token (c : punct) : Token :=
  match c with
  | PLeftBrace => mkToken TokenLeftBrace "{"
  | PRightBrace => mkToken TokenRightBrace "}"
  | PLeftBracket => mkToken TokenLeftBracket "["
  | PRightBracket => mkToken TokenRightBracket "]"
  | PColon => mkToken TokenColon ":"
  | PComma => mkToken TokenComma ","
  end.

Inductive lexeme : Type :=
  | LPunct (c : punct)
  | LString (body : string)
  | LNumber (run : string)
  | LKeyword (kw : string).

Definition text (x : lexeme) : string :=
  match x with
  | LPunct c => Value (punct_token c)
  | LString body => String quote (body +:+ String quote "")
  | LNumber run => run
  | LKeyword kw => kw
  end.

Definition token_of (x : lexeme) : Token :=
  match x with
  | LPunct c => punct_token c
  | LString body => mkToken TokenString (written body)
  | LNumber run => mkToken TokenNumber run
  | LKeyword kw =>
      mkToken (if decide (kw = "null") then TokenNull else TokenBoolean) kw
  end.

Definition lexeme_ok (x : lexeme) : bool :=
  match x with
  | LPunct _ => true
  | LString body => all_runes inString body
  | LNumber run =>
      (IsDigit (head_rune run) || (head_rune run =? r_minus))
      && all_runes inNumber run
  | LKeyword kw =>
      bool_decide (kw = "true") || bool_decide (kw = "false")
      || bool_decide (kw = "null")
  end.

Definition nonempty (s : string) : bool :=
  match s with
  | EmptyString => false
  | String _ _ => true
  end.

(** A number or a keyword ends where a byte of another kind follows. *)
Definition follow_ok (x : lexeme) (next : string) : bool :=
  match x with
  | LNumber _ => nonempty next && negb (inNumber (head_rune next))
  | LKeyword _ => nonempty next && negb (IsLetter (head_rune next))
  | _ => true
  end.

Fixpoint lay (items : list (string * lexeme)) (tail : string) : string :=
  match items with
  | [] => tail
  | (w, x) :: r => w +:+ text x +:+ lay r tail
  end.

Fixpoint laid_ok (items : list (string * lexeme)) (tail : string) : bool :=
  match items with
  | [] => true
  | (w, x) :: r =>
      all_runes IsSpace w && lexeme_ok x && follow_ok x (lay r tail)
      && laid_ok r tail
  end.

(** The first parser reads a document that ends with [tail], the second
    the same document followed by [extra]; they agree until the first one
    meets the end. *)
Definition cut_short_by (tail extra : string) (p1 p2 : Parser) : Prop :=
  Type_ (token p1) = TokenEOF
  \/ (token p2 = token p1
      /\ exists items pre1 pre2,
           laid_ok items tail = true
           /\ At (lexer p1) pre1 (lay items tail)
           /\ At (lexer p2) pre2 (lay items (tail +:+ extra))).

(** ** White space *)

(** Space, tab, newline, carriage return. *)
Definition is_ws (r : rune) : bool :=
  (r =? 32) || (r =? 9) || (r =? 10) || (r =? 13).

(** [ws_inserted s s']: [s'] is [s] with white space inserted. *)
Inductive ws_inserted : string -> string -> Prop :=
  | wi_nil : ws_inserted "" ""
  | wi_keep c s s' : ws_inserted s s' -> ws_inserted (String c s) (String c s')
  | wi_add c s s' :
      is_ws (rune_of_byte c) = true -> ws_inserted s s' -> ws_inserted s (String c s').

(** The same lexemes, with white space inserted into the gaps. *)
Definition respaced (items items' : list (string * lexeme)) : Prop :=
  Forall2 (fun a b => snd a = snd b /\ ws_inserted (fst a) (fst b)) items items'.

(** [Laid l xs]: the lexer has the lexemes [xs] before it, well laid out,
    and then only white space. *)
Definition Laid (l : Lexer) (xs : list lexeme) : Prop :=
  exists items tail pre,
    map snd items = xs /\ laid_ok items tail = true
    /\ all_runes IsSpace tail = true /\ At l pre (lay items tail).

(** Two parsers over two layouts of the same lexemes. *)
Definition same_lexemes (p1 p2 : Parser) : Prop :=
  token p2 = token p1
  /\ exists xs, Laid (lexer p1) xs /\ Laid (lexer p2) xs.

(** ** String literals as the specification reads them

    Following the specification's words, for comparison only: a string
    literal is consumed up to an unescaped quote; a backslash introduces an
    escape, one of the eight single-byte escapes or [u] and four
    hexadecimal digits.  The function returns what follows the literal. *)

Definition is_hex (r : rune) : bool :=
  IsDigit r || ((65 <=? r) && (r <=? 70)) || ((97 <=? r) && (r <=? 102)).

Definition is_simple_escape (r : rune) : bool :=
  (r =? r_quote) || (r =? 92) || (r =? 47) || (r =? 98) || (r =? 102)
  || (r =? 110) || (r =? 114) || (r =? 116).

Fixpoint spec_string_rest (s : string) : option string :=
  match s with
  | EmptyString => None
  | String c s' =>
      if rune_of_byte c =? r_quote then Some s'
      else if rune_of_byte c =? 92 then
        match s' with
        | EmptyString => None
        | String e s'' =>
            if is_simple_escape (rune_of_byte e) then spec_string_rest s''
            else if rune_of_byte e =? 117 then
              match s'' with
              | String h1 (String h2 (String h3 (String h4 s5))) =>
                  if is_hex (rune_of_byte h1) && is_hex (rune_of_byte h2)
                     && is_hex (rune_of_byte h3) && is_hex (rune_of_byte h4)
                  then spec_string_rest s5 else None
              | _ => None
              end
            else None
        end
      else spec_string_rest s'
  end.

Definition spec_string_literal (s : string) : option string :=
  match s with
  | String c s' => if rune_of_byte c =? r_quote then spec_string_rest s' else None
  | EmptyString => None
  end.

(** ** Members of an object *)

(** The loop of [parseObject] once more, recording the members in the
    order of the source instead of storing them in the map. *)
Fixpoint parseObject_members (fuel : nat) (acc : list (string * value)) (p : Parser)
  : result (list (string * value) * Parser) :=
  match fuel with
  | O => OutOfFuel
  | S f =>
      if tokenIs p TokenRightBrace then Ok (acc, p)
      else if negb (tokenIs p TokenString) then Panic "Expected string key in object"
      else
        let key := Value (token p) in
        p1 <- p_nextToken p ;;
        if negb (tokenIs p1 TokenColon) then Panic "Expected ':' after key"
        else
          p2 <- p_nextToken p1 ;;
          r <- parseValue f p2 ;;
          p3 <- (if tokenIs (snd r) TokenComma then p_nextToken (snd r)
                 else if negb (tokenIs (snd r) TokenRightBrace)
                      then Panic "Expected ',' or '}' in object"
                      else Ok (snd r)) ;;
          parseObject_members f (acc ++ [(key, fst r)])%list p3
  end.

(** [obj[key] = value] for each member in turn. *)
Definition store (obj : gmap string value) (members : list (string * value))
  : gmap string value :=
  foldl (fun m kv => <[fst kv := snd kv]> m) obj members.

(** The value of the last member whose key is [k]. *)
Fixpoint last_value (k : string) (members : list (string * value)) : option value :=
  match members with
  | [] => None
  | (k', v) :: r =>
      match last_value k r with
      | Some v' => Some v'
      | None => if decide (k' = k) then Some v else None
      end
  end.

Definition in_map (obj : gmap string value)
    (r : result (list (string * value) * Parser))
  : result (gmap string value * Parser) :=
  x <- r ;; Ok (store obj (fst x), snd x).

(** ** States the lexer can reach *)

(** The states of a lexer made by [NewLexer s]: the first one, and those
    that [advance] and [nextToken] lead to. *)
Inductive reachable (s : string) : Lexer -> Prop :=
  | reach_new : reachable s (NewLexer s)
  | reach_advance l : reachable s l -> reachable s (advance l)
  | reach_next l t l' :
      reachable s l -> nextToken l = Ok (t, l') -> reachable s l'.

(** [n] calls of [nextToken] in a row. *)
Fixpoint tokens (n : nat) (l : Lexer) : result (list Token) :=
  match n with
  | O => Ok []
  | S n' =>
      r <- nextToken l ;;
      ts <- tokens n' (snd r) ;;
      Ok (fst r :: ts)
  end.

Definition eof_token : Token := mkToken TokenEOF "".

(** The number of bytes of [s] that are not ASCII. *)
Fixpoint count_high (s : string) : nat :=
  match s with
  | String c s' => ((if IsASCII (rune_of_byte c) then 0 else 1) + count_high s')%nat
  | EmptyString => 0%nat
  end.

(** How [readKeyword] answers for the text [kw] of a run: a Boolean token
    for [true] and [false], a Null token for [null], a panic that names
    the text for anything else. *)
Definition keyword_outcome (r : result (Token * Lexer)) (kw : string) (l' : Lexer)
  : Prop :=
  (kw = "true" \/ kw = "false" -> r = Ok (mkToken TokenBoolean kw, l'))
  /\ (kw = "null" -> r = Ok (mkToken TokenNull kw, l'))
  /\ (kw <> "true" -> kw <> "false" -> kw <> "null" ->
      r = Panic ("Unexpected keyword: " +:+ kw)).

(** What the text of a token can be, by its type. *)
Definition token_shape (t : Token) : Prop :=
  match Type_ t with
  | TokenString => all_runes inString (Value t) = true
  | TokenNumber => all_runes inNumber (Value t) = true
  | TokenBoolean => Value t = "true" \/ Value t = "false"
  | TokenNull => Value t = "null"
  | TokenLeftBrace => Value t = "{"
  | TokenRightBrace => Value t = "}"
  | TokenLeftBracket => Value t = "["
  | TokenRightBracket => Value t = "]"
  | TokenColon => Value t = ":"
  | TokenComma => Value t = ","
  | TokenEOF => Value t = ""
  end.

(** ** Documents of the grammar

    The grammar of the README: a value is a string, a number, a boolean,
    null, an object or an array.  A string is given by the bytes between
    its quotes and a number by its text. *)
Inductive json : Type :=
  | JString (body : string)
  | JNumber (run : string)
  | JBool (b : bool)
  | JNull
  | JObject (members : list (string * json))
  | JArray (elems : list json).

(** The chunks of a list, separated by commas; with [tc] a comma also
    follows the last chunk. *)
Fixpoint joined (tc : bool) (chunks : list (list lexeme)) : list lexeme :=
  match chunks with
  | [] => []
  | c :: r =>
      (c ++ match r with
            | [] => if tc then [LPunct PComma] else []
            | _ :: _ => LPunct PComma :: joined tc r
            end)%list
  end.

(** The tokens of a document. *)
Fixpoint tokens_of (tc : bool) (d : json) : list lexeme :=
  match d with
  | JString body => [LString body]
  | JNumber run => [LNumber run]
  | JBool b => [LKeyword (if b then "true" else "false")]
  | JNull => [LKeyword "null"]
  | JObject ms =>
      (LPunct PLeftBrace
       :: joined tc (map (fun m => LString (fst m) :: LPunct PColon
                                   :: tokens_of tc (snd m)) ms)
       ++ [LPunct PRightBrace])%list
  | JArray ds =>
      (LPunct PLeftBracket :: joined tc (map (tokens_of tc) ds)
       ++ [LPunct PRightBracket])%list
  end.

(** The value a document stands for: members are stored in order, so the
    last of several members with one key remains. *)
Fixpoint value_of (d : json) : value :=
  match d with
  | JString body => VString (written body)
  | JNumber run => VNumber (fst (ParseFloat run))
  | JBool b => VBool b
  | JNull => VNil
  | JObject ms =>
      VObject (store ∅ (map (fun m => (written (fst m), value_of (snd m))) ms))
  | JArray ds => VArray (map value_of ds)
  end.

Definition is_container (d : json) : bool :=
  match d with
  | JObject _ | JArray _ => true
  | _ => false
  end.

(** Fuel that is enough to parse a document. *)
Fixpoint need (d : json) : nat :=
  match d with
  | JObject ms => (3 + length ms + list_sum (map (fun m => need (snd m)) ms))%nat
  | JArray ds => (3 + length ds + list_sum (map need ds))%nat
  | _ => 1%nat
  end.

(** [Ahead p xs]: the lookahead of the parser is the token of the first
    lexeme of [xs], and its lexer has the others before it. *)
Definition Ahead (p : Parser) (xs : list lexeme) : Prop :=
  token p = match xs with
            | [] => eof_token
            | x :: _ => token_of x
            end
  /\ Laid (lexer p) (tl xs).

Definition parses (tc : bool) (d : json) : Prop :=
  forall f p more,
    (need d <= f)%nat -> Ahead p (tokens_of tc d ++ more) ->
    exists p', parseValue f p = Ok (value_of d, p') /\ Ahead p' more.

(** * Properties *)

(** ** Strings *)

Lemma app_cons x a b : String x a +:+ b = String x (a +:+ b).
Proof. reflexivity. Qed.

Lemma app_nil_l b : "" +:+ b = b.
Proof. reflexivity. Qed.

Lemma length_app a b :
  String.length (a +:+ b) = (String.length a + String.length b)%nat.
Proof.
  induction a as [|c a IH]; [reflexivity|].
  rewrite app_cons. simpl. now rewrite IH.
Qed.

Lemma len_app a b : len (a +:+ b) = len a + len b.
Proof. unfold len. rewrite length_app. lia. Qed.

Lemma len_cons x a : len (String x a) = 1 + len a.
Proof. unfold len. simpl String.length. lia. Qed.

Lemma len_nonneg s : 0 <= len s.
Proof. unfold len. lia. Qed.

Lemma app_assoc a b c : (a +:+ b) +:+ c = a +:+ b +:+ c.
Proof.
  induction a as [|x a IH]; [reflexivity|].
  rewrite !app_cons. now rewrite IH.
Qed.

Lemma app_nil_r a : a +:+ "" = a.
Proof.
  induction a as [|x a IH]; [reflexivity|].
  rewrite app_cons. now rewrite IH.
Qed.

Lemma get_app pre c r : String.get (String.length pre) (pre +:+ String c r) = Some c.
Proof. induction pre as [|x pre IH]; [reflexivity|]. rewrite app_cons. apply IH. Qed.

Lemma index_app pre c r : index (pre +:+ String c r) (len pre) = rune_of_byte c.
Proof. unfold index, len. now rewrite Nat2Z.id, get_app. Qed.

Lemma substring_0 mid post : substring 0 (String.length mid) (mid +:+ post) = mid.
Proof.
  induction mid as [|x mid IH].
  - destruct post; reflexivity.
  - rewrite app_cons. simpl. now rewrite IH.
Qed.

Lemma substring_app pre mid post :
  substring (String.length pre) (String.length mid) (pre +:+ mid +:+ post) = mid.
Proof.
  induction pre as [|x pre IH]; [exact (substring_0 mid post)|].
  rewrite app_cons. apply IH.
Qed.

Lemma slice_app pre mid post :
  slice (pre +:+ mid +:+ post) (len pre) (len pre + len mid) = Ok mid.
Proof.
  unfold slice. rewrite !len_app.
  pose proof (len_nonneg pre). pose proof (len_nonneg mid). pose proof (len_nonneg post).
  replace ((0 <=? len pre) && (len pre <=? len pre + len mid)
           && (len pre + len mid <=? len pre + (len mid + len post))) with true
    by (symmetry; rewrite !andb_true_iff, !Z.leb_le; lia).
  f_equal. replace (len pre + len mid - len pre) with (len mid) by lia.
  unfold len. rewrite !Nat2Z.id. apply substring_app.
Qed.

Lemma rune_of_byte_range b : 0 <= rune_of_byte b < 256.
Proof.
  unfold rune_of_byte. pose proof (N_ascii_bounded b). lia.
Qed.

(** ** The cursor *)

Lemma span_app P s : fst (span P s) +:+ snd (span P s) = s.
Proof.
  induction s as [|c s IH]; [reflexivity|]. simpl.
  destruct (P (rune_of_byte c)); simpl; [|reflexivity].
  rewrite app_cons. now rewrite IH.
Qed.

Lemma span_all P s : all_runes P (fst (span P s)) = true.
Proof.
  induction s as [|c s IH]; [reflexivity|]. simpl.
  destruct (P (rune_of_byte c)) eqn:E; simpl; [|reflexivity].
  now rewrite E, IH.
Qed.

Lemma span_stop P s : P 0 = false -> P (head_rune (snd (span P s))) = false.
Proof.
  intros H0. induction s as [|c s IH]; [exact H0|]. simpl.
  destruct (P (rune_of_byte c)) eqn:E; simpl; [exact IH|exact E].
Qed.

Lemma span_run P run rest :
  all_runes P run = true -> P (head_rune rest) = false ->
  span P (run +:+ rest) = (run, rest).
Proof.
  intros Hrun Hrest. induction run as [|c run IH].
  - rewrite app_nil_l. destruct rest as [|c r]; [reflexivity|].
    simpl in *. now rewrite Hrest.
  - rewrite app_cons. simpl in *. apply andb_true_iff in Hrun as [Hc Hrun].
    rewrite Hc, (IH Hrun). reflexivity.
Qed.

Lemma NewLexer_At s : At (NewLexer s) "" s.
Proof.
  unfold NewLexer, advance, At. simpl. destruct s as [|c r].
  - simpl. auto.
  - replace (0 <? len (String c r)) with true
      by (symmetry; apply Z.ltb_lt; rewrite len_cons; pose proof (len_nonneg r); lia).
    simpl. auto.
Qed.

Lemma app_snoc pre c r : (pre +:+ String c "") +:+ r = pre +:+ String c r.
Proof. now rewrite app_assoc. Qed.

Lemma len_snoc pre c : len (pre +:+ String c "") = len pre + 1.
Proof. rewrite len_app, len_cons. unfold len at 2. simpl. lia. Qed.

Lemma advance_At l pre c r :
  At l pre (String c r) -> At (advance l) (pre +:+ String c "") r.
Proof.
  destruct l as [inp p cur]. unfold At. simpl. intros (-> & -> & ->).
  unfold advance. simpl.
  assert (Hlen : len (pre +:+ String c r) = len pre + 1 + len r)
    by (rewrite len_app, len_cons; lia).
  rewrite Hlen, app_snoc, len_snoc.
  destruct r as [|c' r'].
  - destruct (Z.ltb_spec (len pre + 1) (len pre + 1 + len "")) as [Hlt|_].
    + unfold len in Hlt. simpl in Hlt. lia.
    + simpl. auto.
  - destruct (Z.ltb_spec (len pre + 1) (len pre + 1 + len (String c' r'))) as [_|Hge].
    + simpl. split; [reflexivity|]. split; [|reflexivity].
      rewrite <- (app_snoc pre c), <- len_snoc with (c := c). apply index_app.
    + rewrite len_cons in Hge. pose proof (len_nonneg r'). lia.
Qed.

Lemma advance_At_nil l pre : At l pre "" -> advance l = l.
Proof.
  intros (Hin & Hcur & Hpos). unfold advance.
  rewrite Hin, Hpos, app_nil_r, Z.ltb_irrefl.
  destruct l as [i p c]; simpl in *. subst. now rewrite app_nil_r.
Qed.

Lemma At_current l pre rem : At l pre rem -> current l = head_rune rem.
Proof. now intros (_ & H & _). Qed.

Lemma At_budget l pre rem : At l pre rem -> (String.length rem < budget l)%nat.
Proof.
  intros (Hin & Hcur & Hpos). unfold budget. rewrite Hin, Hpos, len_app.
  destruct rem as [|c r]; simpl; [lia|].
  rewrite len_cons. unfold len. lia.
Qed.

Lemma scan_At cond run : forall n l pre rem,
  At l pre (run +:+ rem) ->
  all_runes cond run = true -> cond (head_rune rem) = false ->
  (String.length run < n)%nat ->
  At (scan cond n l) (pre +:+ run) rem.
Proof.
  induction run as [|c run IH]; intros n l pre rem HAt Hrun Hrem Hn.
  - rewrite app_nil_l in HAt. rewrite app_nil_r.
    destruct n as [|n]; [simpl in Hn; lia|]. simpl.
    now rewrite (At_current _ _ _ HAt), Hrem.
  - rewrite app_cons in HAt. simpl in Hrun, Hn.
    apply andb_true_iff in Hrun as [Hc Hrun].
    destruct n as [|n]; [lia|]. simpl.
    rewrite (At_current _ _ _ HAt). simpl. rewrite Hc.
    apply advance_At in HAt.
    specialize (IH n _ _ _ HAt Hrun Hrem ltac:(lia)).
    now rewrite app_assoc in IH.
Qed.

(** A loop of the lexer consumes exactly the longest run of bytes that
    satisfy its condition. *)
Lemma scan_span cond l pre rem :
  cond 0 = false -> At l pre rem ->
  At (scan cond (budget l) l) (pre +:+ fst (span cond rem)) (snd (span cond rem)).
Proof.
  intros H0 HAt. apply scan_At.
  - now rewrite span_app.
  - apply span_all.
  - now apply span_stop.
  - pose proof (At_budget _ _ _ HAt) as Hb.
    rewrite <- (span_app cond rem), length_app in Hb. lia.
Qed.

(** The loops stop because their condition fails, not for lack of budget. *)
Lemma scan_stops cond l pre rem :
  cond 0 = false -> At l pre rem ->
  cond (current (scan cond (budget l) l)) = false.
Proof.
  intros H0 HAt. rewrite (At_current _ _ _ (scan_span cond l pre rem H0 HAt)).
  now apply span_stop.
Qed.

Lemma scan_input cond n l : input (scan cond n l) = input l.
Proof.
  revert l. induction n as [|n IH]; intros l; [reflexivity|]. simpl.
  destruct (cond (current l)); [|reflexivity].
  rewrite IH. unfold advance. now destruct (pos l <? len (input l)).
Qed.

Lemma IsSpace_0 : IsSpace 0 = false.
Proof. reflexivity. Qed.
Lemma inNumber_0 : inNumber 0 = false.
Proof. reflexivity. Qed.
Lemma IsLetter_0 : IsLetter 0 = false.
Proof. reflexivity. Qed.
Lemma inString_0 : inString 0 = false.
Proof. reflexivity. Qed.

Lemma skipWhitespace_At l pre rem :
  At l pre rem ->
  At (skipWhitespace l) (pre +:+ fst (span IsSpace rem)) (snd (span IsSpace rem)).
Proof. apply scan_span, IsSpace_0. Qed.

Lemma skipWhitespace_id l : IsSpace (current l) = false -> skipWhitespace l = l.
Proof. intros H. unfold skipWhitespace, budget. simpl. now rewrite H. Qed.

Lemma skipWhitespace_stops l pre rem :
  At l pre rem -> IsSpace (current (skipWhitespace l)) = false.
Proof. apply scan_stops, IsSpace_0. Qed.

Lemma nextToken_skip l pre rem :
  At l pre rem -> nextToken l = nextToken (skipWhitespace l).
Proof.
  intros HAt. unfold nextToken.
  now rewrite (skipWhitespace_id (skipWhitespace l) (skipWhitespace_stops _ _ _ HAt)).
Qed.

(** *** String literals *)

Lemma byte_of_rune c : byte_of_Z (rune_of_byte c) = c.
Proof. unfold byte_of_Z, rune_of_byte. now rewrite N2Z.id, ascii_N_embedding. Qed.

Lemma written_ascii s : all_runes IsASCII s = true -> written s = s.
Proof.
  induction s as [|c s IH]; [reflexivity|]. simpl.
  intros [Hc Hs]%andb_true_iff. rewrite (IH Hs).
  unfold utf8_encode, IsASCII in *. apply Z.ltb_lt in Hc.
  pose proof (rune_of_byte_range c).
  replace ((0 <=? rune_of_byte c) && (rune_of_byte c <=? 127)) with true
    by (symmetry; rewrite andb_true_iff, !Z.leb_le; lia).
  now rewrite byte_of_rune.
Qed.

Lemma readString_loop_At body : forall n sb l pre rem,
  At l pre (body +:+ rem) ->
  all_runes inString body = true -> inString (head_rune rem) = false ->
  (String.length body < n)%nat ->
  exists l', readString_loop n sb l = (sb +:+ written body, l')
             /\ At l' (pre +:+ body) rem.
Proof.
  induction body as [|c body IH]; intros n sb l pre rem HAt Hbody Hrem Hn.
  - rewrite app_nil_l in HAt. rewrite app_nil_r.
    destruct n as [|n]; [simpl in Hn; lia|]. simpl.
    rewrite (At_current _ _ _ HAt), Hrem, app_nil_r. eauto.
  - rewrite app_cons in HAt. simpl in Hbody, Hn.
    apply andb_true_iff in Hbody as [Hc Hbody].
    destruct n as [|n]; [lia|]. simpl.
    rewrite (At_current _ _ _ HAt). simpl. rewrite Hc.
    apply advance_At in HAt.
    destruct (IH n (WriteRune sb (rune_of_byte c)) _ _ _ HAt Hbody Hrem ltac:(lia))
      as (l' & Hl' & HAt').
    exists l'. split.
    + rewrite Hl'. unfold WriteRune. now rewrite app_assoc.
    + now rewrite app_assoc in HAt'.
Qed.

(** [readString] from an opening byte [q]: the payload is what the loop
    wrote for the span of bytes other than the quote and 0, and the byte
    that stopped the loop, if any, is skipped. *)
Lemma readString_At l pre q rem :
  At l pre (String q rem) ->
  let body := fst (span inString rem) in
  let rest := snd (span inString rem) in
  exists l', readString l = (mkToken TokenString (written body), l')
             /\ At l' (pre +:+ String q "" +:+ body
                       +:+ match rest with String c _ => String c "" | _ => "" end)
                      (match rest with String _ r => r | _ => "" end).
Proof.
  intros HAt body rest. unfold readString.
  pose proof (advance_At _ _ _ _ HAt) as HAt1.
  pose proof (At_budget _ _ _ HAt1) as Hb.
  rewrite <- (span_app inString rem) in HAt1, Hb. fold body rest in HAt1, Hb.
  rewrite length_app in Hb.
  destruct (readString_loop_At body (budget (advance l)) "" _ _ rest HAt1)
    as (l2 & Hl2 & HAt2).
  { apply span_all. } { apply span_stop, inString_0. } { lia. }
  rewrite Hl2. rewrite app_nil_l.
  destruct rest as [|c r] eqn:Erest.
  - exists l2. rewrite (advance_At_nil _ _ HAt2). split; [reflexivity|].
    rewrite app_nil_r. rewrite app_assoc in HAt2. exact HAt2.
  - exists (advance l2). split; [reflexivity|].
    apply advance_At in HAt2. rewrite !app_assoc in HAt2. exact HAt2.
Qed.

(** *** Runs: numbers and keywords *)

Lemma chop_last s : s <> "" -> exists x, s = chop s +:+ String x "".
Proof.
  induction s as [|c s IH]; [congruence|]. intros _.
  destruct s as [|c' s']; [now exists c|].
  destruct IH as [x Hx]; [congruence|]. exists x.
  change (chop (String c (String c' s'))) with (String c (chop (String c' s'))).
  rewrite app_cons. now rewrite <- Hx.
Qed.

Lemma scan_slice cond l pre run rest :
  At l pre (run +:+ rest) -> run <> "" ->
  all_runes cond run = true -> cond (head_rune rest) = false ->
  let l' := scan cond (budget l) l in
  At l' (pre +:+ run) rest
  /\ slice (input l') (pos l - 1) (pos l' - 1) = Ok (run_text run rest).
Proof.
  intros HAt Hne Hrun Hrest l'.
  assert (HAt' : At l' (pre +:+ run) rest).
  { apply scan_At; auto. pose proof (At_budget _ _ _ HAt) as Hb.
    rewrite length_app in Hb. lia. }
  split; [exact HAt'|].
  unfold l' at 1. rewrite scan_input.
  destruct HAt as (Hin & _ & Hpos). destruct HAt' as (_ & _ & Hpos').
  rewrite Hin, Hpos, Hpos'.
  assert (Hp : pos l - 1 = len pre).
  { rewrite Hpos. destruct run; [congruence|]. rewrite app_cons. lia. }
  destruct run as [|c run0] eqn:Erun; [congruence|]. rewrite <- Erun in *.
  replace (match run +:+ rest with String _ _ => len pre + 1 | _ => len pre end - 1)
    with (len pre) by (rewrite Erun, app_cons; lia).
  destruct rest as [|c' r']; simpl run_text.
  - destruct (chop_last run Hne) as [x Hx].
    rewrite app_nil_r. rewrite Hx at 1 2. rewrite len_app, len_snoc.
    replace (len pre + (len (chop run) + 1) - 1) with (len pre + len (chop run)) by lia.
    apply slice_app.
  - rewrite len_app. replace (len pre + len run + 1 - 1) with (len pre + len run) by lia.
    apply slice_app.
Qed.

Lemma span_length P s :
  (String.length (snd (span P s)) <= String.length s)%nat.
Proof.
  rewrite <- (span_app P s) at 2. rewrite length_app. lia.
Qed.

Lemma span_nonempty P c r :
  P (rune_of_byte c) = true -> fst (span P (String c r)) <> "".
Proof. intros H. simpl. now rewrite H. Qed.

Lemma span_shorter P c r :
  P (rune_of_byte c) = true ->
  (String.length (snd (span P (String c r))) <= String.length r)%nat.
Proof.
  intros H. simpl. rewrite H. simpl. apply span_length.
Qed.

(** [readNumber] and [readKeyword] on a cursor that stands on a byte of
    the run. *)
Lemma readNumber_At l pre c r :
  At l pre (String c r) -> inNumber (rune_of_byte c) = true ->
  let run := fst (span inNumber (String c r)) in
  let rest := snd (span inNumber (String c r)) in
  exists l', readNumber l = Ok (mkToken TokenNumber (run_text run rest), l')
             /\ At l' (pre +:+ run) rest.
Proof.
  intros HAt Hc run rest. unfold readNumber.
  rewrite <- (span_app inNumber (String c r)) in HAt. fold run rest in HAt.
  destruct (scan_slice inNumber l pre run rest HAt) as [HAt' Hs].
  { now apply span_nonempty. } { apply span_all. } { apply span_stop, inNumber_0. }
  rewrite Hs. simpl. eauto.
Qed.

Lemma chop_all P s : all_runes P s = true -> all_runes P (chop s) = true.
Proof.
  induction s as [|c s IH]; [reflexivity|]. simpl.
  intros [Hc Hs]%andb_true_iff. destruct s as [|c' s']; [reflexivity|].
  change (all_runes P (String c (chop (String c' s'))) = true).
  change (P (rune_of_byte c) && all_runes P (chop (String c' s')) = true).
  rewrite Hc. exact (IH Hs).
Qed.

(** The text of a Number token holds digits, '.' and '-' only. *)
Lemma readNumber_alphabet l pre c r :
  At l pre (String c r) -> inNumber (rune_of_byte c) = true ->
  exists text l', readNumber l = Ok (mkToken TokenNumber text, l')
                  /\ all_runes inNumber text = true.
Proof.
  intros HAt Hc. destruct (readNumber_At _ _ _ _ HAt Hc) as (l' & H & _).
  eexists _, l'. split; [exact H|].
  pose proof (span_all inNumber (String c r)) as Hall.
  unfold run_text. destruct (snd (span inNumber (String c r))); [now apply chop_all|exact Hall].
Qed.

Lemma readKeyword_At l pre c r :
  At l pre (String c r) -> IsLetter (rune_of_byte c) = true ->
  let run := fst (span IsLetter (String c r)) in
  let rest := snd (span IsLetter (String c r)) in
  exists l', readKeyword l = keyword_result (run_text run rest) l'
             /\ At l' (pre +:+ run) rest.
Proof.
  intros HAt Hc run rest. unfold readKeyword.
  rewrite <- (span_app IsLetter (String c r)) in HAt. fold run rest in HAt.
  destruct (scan_slice IsLetter l pre run rest HAt) as [HAt' Hs].
  { now apply span_nonempty. } { apply span_all. } { apply span_stop, IsLetter_0. }
  rewrite Hs. simpl. eauto.
Qed.

(** [nextToken] keeps the cursor well formed, never fails on a slice, and
    consumes at least one byte for every token other than the end of
    input. *)
Lemma nextToken_At l pre rem :
  At l pre rem ->
  (exists t l' pre' rem',
      nextToken l = Ok (t, l') /\ At l' pre' rem'
      /\ (String.length rem' <= String.length rem)%nat
      /\ (Type_ t <> TokenEOF -> (String.length rem' < String.length rem)%nat))
  \/ (exists kw, nextToken l = Panic ("Unexpected keyword: " +:+ kw)
                 /\ IsLetter (head_rune (snd (span IsSpace rem))) = true).
Proof.
  intros HAt. rewrite (nextToken_skip _ _ _ HAt).
  pose proof (skipWhitespace_At _ _ _ HAt) as HAt1.
  pose proof (span_length IsSpace rem) as Hlen.
  pose proof (skipWhitespace_stops _ _ _ HAt) as Hstop.
  set (l1 := skipWhitespace l) in *.
  set (pre1 := pre +:+ fst (span IsSpace rem)) in *.
  set (rem1 := snd (span IsSpace rem)) in *.
  unfold nextToken. rewrite (skipWhitespace_id l1 Hstop).
  rewrite (At_current _ _ _ HAt1).
  destruct rem1 as [|c r] eqn:Erem.
  { left. exists (mkToken TokenEOF ""), l1, pre1, "".
    split; [reflexivity|]. split; [exact HAt1|]. split; [simpl; lia|].
    simpl. congruence. }
  simpl head_rune.
  pose proof (advance_At _ _ _ _ HAt1) as HAdv.
  assert (Hr : (String.length r < String.length rem)%nat) by (simpl in Hlen; lia).
  destruct (_ =? r_lbrace);
    [left; eexists _, _, _, _; split; [reflexivity|]; split; [exact HAdv|]; split; intros; lia|].
  destruct (_ =? r_rbrace);
    [left; eexists _, _, _, _; split; [reflexivity|]; split; [exact HAdv|]; split; intros; lia|].
  destruct (_ =? r_lbracket);
    [left; eexists _, _, _, _; split; [reflexivity|]; split; [exact HAdv|]; split; intros; lia|].
  destruct (_ =? r_rbracket);
    [left; eexists _, _, _, _; split; [reflexivity|]; split; [exact HAdv|]; split; intros; lia|].
  destruct (_ =? r_colon);
    [left; eexists _, _, _, _; split; [reflexivity|]; split; [exact HAdv|]; split; intros; lia|].
  destruct (_ =? r_comma);
    [left; eexists _, _, _, _; split; [reflexivity|]; split; [exact HAdv|]; split; intros; lia|].
  destruct (_ =? r_quote).
  { destruct (readString_At _ _ _ _ HAt1) as (l' & Hl' & HAt').
    rewrite Hl'. left. eexists _, _, _, _. split; [reflexivity|].
    split; [exact HAt'|].
    pose proof (span_length inString r) as Hs.
    destruct (snd (span inString r)); simpl in *; split; intros; lia. }
  destruct (IsDigit (rune_of_byte c) || (rune_of_byte c =? r_minus)) eqn:Enum.
  { assert (Hc : inNumber (rune_of_byte c) = true).
    { unfold inNumber. apply orb_true_iff in Enum as [->| ->]; auto using orb_true_r. }
    destruct (readNumber_At _ _ _ _ HAt1 Hc) as (l' & Hl' & HAt').
    rewrite Hl'. left. eexists _, _, _, _. split; [reflexivity|].
    split; [exact HAt'|].
    pose proof (span_shorter inNumber c r Hc). simpl in Hlen. split; intros; lia. }
  destruct (IsLetter (rune_of_byte c)) eqn:Hc.
  { destruct (readKeyword_At _ _ _ _ HAt1 Hc) as (l' & Hl' & HAt').
    rewrite Hl'. unfold keyword_result.
    pose proof (span_shorter IsLetter c r Hc). simpl in Hlen.
    repeat case_decide;
      try (left; eexists _, _, _, _; split; [reflexivity|];
           split; [exact HAt'|]; split; intros; lia).
    right. eexists. split; reflexivity. }
  left. exists (mkToken TokenEOF ""), l1, pre1, (String c r).
  split; [reflexivity|]. split; [exact HAt1|]. split; [exact Hlen|].
  simpl. congruence.
Qed.

(** ** Sample documents *)

Example parse_empty_object : parse "{}" = Ok (VObject ∅).
Proof. vm_compute. reflexivity. Qed.

Example parse_array_123 :
  parse "[1,2,3]"
  = Ok (VArray [VNumber (float64_of_Z 1); VNumber (float64_of_Z 2);
                VNumber (float64_of_Z 3)]).
Proof. vm_compute. reflexivity. Qed.

Example parse_sample_of_main :
  parse (dq "{
		'name': 'nepal',
		'age': 0,
		'country': true,
		'districts': ['Kathmandu', 'Lalitpur'],
		'address': { 'continent': 'Asia', 'Location': 'South Asia' }
	}")
  = Ok (VObject
          (<["name" := VString "nepal"]>
           (<["age" := VNumber (S754_zero false)]>
            (<["country" := VBool true]>
             (<["districts" := VArray [VString "Kathmandu"; VString "Lalitpur"]]>
              (<["address" := VObject (<["continent" := VString "Asia"]>
                                       (<["Location" := VString "South Asia"]> ∅))]>
               ∅)))))).
Proof. vm_compute. reflexivity. Qed.

(** ** Trailing commas *)

(** C2.  The code accepts a comma right before the closing bracket or
    brace: after a comma the loops test for the closer again, so the
    document parses as if the comma were not there. *)
Theorem trailing_comma_accepted :
  parse "[1,]" = Ok (VArray [VNumber (float64_of_Z 1)])
  /\ parse (dq "{'a':1,}") = Ok (VObject (<["a" := VNumber (float64_of_Z 1)]> ∅)).
Proof. split; vm_compute; reflexivity. Qed.

(** ** The first token decides the top level *)

Lemma slice_cases s lo hi :
  (exists v, slice s lo hi = Ok v) \/ slice s lo hi = Panic "slice bounds out of range".
Proof. unfold slice. destruct (_ && _); eauto. Qed.

(** Only the bytes '{' and '[' give the tokens that open a container. *)
Lemma nextToken_opener l t l' :
  nextToken l = Ok (t, l') ->
  (Type_ t = TokenLeftBrace -> current (skipWhitespace l) = r_lbrace)
  /\ (Type_ t = TokenLeftBracket -> current (skipWhitespace l) = r_lbracket).
Proof.
  unfold nextToken.
  destruct (Z.eqb_spec (current (skipWhitespace l)) r_lbrace) as [E1|N1].
  { intros [= <- <-]. split; [auto|discriminate]. }
  destruct (_ =? r_rbrace). { intros [= <- <-]. split; discriminate. }
  destruct (Z.eqb_spec (current (skipWhitespace l)) r_lbracket) as [E2|N2].
  { intros [= <- <-]. split; [discriminate|auto]. }
  destruct (_ =? r_rbracket). { intros [= <- <-]. split; discriminate. }
  destruct (_ =? r_colon). { intros [= <- <-]. split; discriminate. }
  destruct (_ =? r_comma). { intros [= <- <-]. split; discriminate. }
  destruct (_ =? r_quote).
  { unfold readString. destruct (readString_loop _ _ _).
    intros [= <- <-]. split; discriminate. }
  destruct (_ || _).
  { unfold readNumber. destruct (slice_cases (input (scan inNumber (budget (skipWhitespace l))
      (skipWhitespace l))) (pos (skipWhitespace l) - 1)
      (pos (scan inNumber (budget (skipWhitespace l)) (skipWhitespace l)) - 1))
      as [[v ->]| ->]; simpl; [|discriminate].
    intros [= <- <-]. split; discriminate. }
  destruct (IsLetter _).
  { unfold readKeyword. destruct (slice_cases (input (scan IsLetter (budget (skipWhitespace l))
      (skipWhitespace l))) (pos (skipWhitespace l) - 1)
      (pos (scan IsLetter (budget (skipWhitespace l)) (skipWhitespace l)) - 1))
      as [[v ->]| ->]; simpl; [|discriminate].
    repeat case_decide; try discriminate; intros [= <- <-]; split; discriminate. }
  intros [= <- <-]. split; discriminate.
Qed.

Lemma nextToken_fuel l : nextToken l <> OutOfFuel.
Proof.
  unfold nextToken.
  repeat (match goal with |- (if ?b then _ else _) <> _ => destruct b end;
          try discriminate).
  - unfold readNumber.
    match goal with |- bind (slice ?s ?a ?b) _ <> _ =>
      destruct (slice_cases s a b) as [[v ->]| ->] end; simpl; discriminate.
  - unfold readKeyword.
    match goal with |- bind (slice ?s ?a ?b) _ <> _ =>
      destruct (slice_cases s a b) as [[v ->]| ->] end; simpl; [|discriminate].
    repeat case_decide; discriminate.
Qed.

(** C6, as the code has it.  When the first significant byte of the input
    is neither '{' nor '[', parsing never succeeds, and the failure is a
    panic, not a returned error: the panic of [parseJSON], "Invalid JSON
    start", whenever the first token can be lexed, and otherwise the panic
    of the lexer, "Unexpected keyword: ...", which only an input that
    begins with a letter can raise. *)
Theorem top_level_must_be_container (s : string) :
  current (skipWhitespace (NewLexer s)) <> r_lbrace ->
  current (skipWhitespace (NewLexer s)) <> r_lbracket ->
  panics (parse s)
  /\ (forall t l', nextToken (NewLexer s) = Ok (t, l') ->
                   parse s = Panic "Invalid JSON start")
  /\ (parse s = Panic "Invalid JSON start"
      \/ exists kw,
           parse s = Panic ("Unexpected keyword: " +:+ kw)
           /\ IsLetter (current (skipWhitespace (NewLexer s))) = true).
Proof.
  intros Hbrace Hbracket.
  assert (Hlexed : forall t l', nextToken (NewLexer s) = Ok (t, l') ->
                                parse s = Panic "Invalid JSON start").
  { intros t l' E. unfold parse, NewParser, p_nextToken. simpl. rewrite E. simpl.
    destruct (nextToken_opener _ _ _ E) as [H1 H2].
    assert (Hp : parseJSON (parse_fuel s) (mkParser l' t) = Panic "Invalid JSON start").
    { unfold parseJSON. simpl.
      destruct (Type_ t); try reflexivity;
        [now elim Hbrace; apply H1|now elim Hbracket; apply H2]. }
    now rewrite Hp. }
  destruct (nextToken_At _ _ _ (NewLexer_At s))
    as [(t & l' & _ & _ & E & _)|(kw & E & Hl)].
  - pose proof (Hlexed _ _ E) as Hp.
    split; [eexists; exact Hp|]. split; [exact Hlexed|now left].
  - assert (Hp : parse s = Panic ("Unexpected keyword: " +:+ kw)).
    { unfold parse, NewParser, p_nextToken. simpl. now rewrite E. }
    split; [eexists; exact Hp|]. split; [exact Hlexed|right].
    exists kw. split; [exact Hp|].
    now rewrite (At_current _ _ _ (skipWhitespace_At _ _ _ (NewLexer_At s))).
Qed.

Lemma top_level_must_be_container_witness :
  parse "42" = Panic "Invalid JSON start".
Proof.
  apply (top_level_must_be_container "42"
           ltac:(vm_compute; discriminate) ltac:(vm_compute; discriminate))
    with (t := mkToken TokenNumber "4") (l' := mkLexer "42" 2 0).
  vm_compute. reflexivity.
Defined.

(** The failure is a panic, and for a word at the top level it is the
    lexer that panics: [true] at the end of the input is compared without
    its last byte, and an unknown word never reaches [parseJSON]. *)
Lemma top_level_failure_is_a_panic :
  parse "42" = Panic "Invalid JSON start"
  /\ parse (dq "'a'") = Panic "Invalid JSON start"
  /\ parse "true " = Panic "Invalid JSON start"
  /\ parse "true" = Panic "Unexpected keyword: tru"
  /\ parse "nil " = Panic "Unexpected keyword: nil".
Proof. repeat split; vm_compute; reflexivity. Qed.

(** ** String literals are copied, not decoded *)

Lemma nextToken_nospace l :
  IsSpace (current l) = false ->
  nextToken l =
    let c := current l in
    if c =? r_lbrace then Ok (mkToken TokenLeftBrace "{", advance l)
    else if c =? r_rbrace then Ok (mkToken TokenRightBrace "}", advance l)
    else if c =? r_lbracket then Ok (mkToken TokenLeftBracket "[", advance l)
    else if c =? r_rbracket then Ok (mkToken TokenRightBracket "]", advance l)
    else if c =? r_colon then Ok (mkToken TokenColon ":", advance l)
    else if c =? r_comma then Ok (mkToken TokenComma ",", advance l)
    else if c =? r_quote then Ok (readString l)
    else if IsDigit c || (c =? r_minus) then readNumber l
    else if IsLetter c then readKeyword l
    else Ok (mkToken TokenEOF "", l).
Proof. intros H. unfold nextToken. now rewrite (skipWhitespace_id l H). Qed.

Lemma nextToken_quote l pre rem :
  At l pre (String quote rem) -> nextToken l = Ok (readString l).
Proof.
  intros HAt. rewrite nextToken_nospace; rewrite (At_current _ _ _ HAt); reflexivity.
Qed.

Lemma nextToken_string l pre body rest :
  At l pre (String quote (body +:+ String quote rest)) ->
  all_runes inString body = true ->
  exists l',
    nextToken l = Ok (mkToken TokenString (written body), l')
    /\ At l' (pre +:+ String quote (body +:+ String quote "")) rest.
Proof.
  intros HAt Hbody. rewrite (nextToken_quote _ _ _ HAt).
  destruct (readString_At _ _ _ _ HAt) as (l' & Hl' & HAt').
  rewrite (span_run inString body (String quote rest) Hbody eq_refl) in Hl', HAt'.
  simpl in Hl', HAt'. exists l'. split; [now rewrite Hl'|].
  now rewrite app_cons, app_nil_l in HAt'.
Qed.

(** Where a string literal ends: [readString] reads from the opening quote
    up to the first byte that is a quote or zero, or up to the end of the
    input, and steps over that byte. *)
Lemma nextToken_literal l pre rem :
  At l pre (String quote rem) ->
  let body := fst (span inString rem) in
  let rest := snd (span inString rem) in
  exists l',
    nextToken l = Ok (mkToken TokenString (written body), l')
    /\ At l' (pre +:+ String quote
                        (body +:+ match rest with
                                  | String c _ => String c ""
                                  | EmptyString => ""
                                  end))
             (match rest with String _ r => r | EmptyString => "" end).
Proof.
  intros HAt body rest. rewrite (nextToken_quote _ _ _ HAt).
  destruct (readString_At _ _ _ _ HAt) as (l' & Hl' & HAt').
  exists l'. split; [now rewrite Hl'|].
  now rewrite app_cons, app_nil_l in HAt'.
Qed.

Lemma span_unique P s run rest :
  s = run +:+ rest -> all_runes P run = true -> P (head_rune rest) = false ->
  run = fst (span P s) /\ rest = snd (span P s).
Proof. intros -> Hrun Hrest. now rewrite (span_run P run rest Hrun Hrest). Qed.

(** C3, as the code has it.  A string literal runs from a quote to the
    first byte after it that is a quote or zero, or to the end of the
    input when there is no such byte; its payload is the bytes in
    between ([body], the one prefix of the text after the opening quote
    that holds no such byte and is followed by one or by the end), each
    written as one rune, so for ASCII text it is the source text itself.
    No escape sequence is decoded: a backslash is a byte like any other,
    and a quote ends the literal whatever precedes it. *)
Theorem string_payload_is_raw l pre rem :
  At l pre (String quote rem) ->
  let body := fst (span inString rem) in
  let rest := snd (span inString rem) in
  rem = body +:+ rest
  /\ all_runes inString body = true
  /\ inString (head_rune rest) = false
  /\ (forall b r, rem = b +:+ r -> all_runes inString b = true ->
                  inString (head_rune r) = false -> b = body /\ r = rest)
  /\ (exists l',
        nextToken l = Ok (mkToken TokenString (written body), l')
        /\ At l' (pre +:+ String quote
                            (body +:+ match rest with
                                      | String c _ => String c ""
                                      | EmptyString => ""
                                      end))
                 (match rest with String _ r => r | EmptyString => "" end))
  /\ (all_runes IsASCII body = true -> written body = body).
Proof.
  intros HAt body rest.
  split; [symmetry; apply span_app|].
  split; [apply span_all|].
  split; [apply span_stop; reflexivity|].
  split; [intros b r; apply span_unique|].
  split; [exact (nextToken_literal l pre rem HAt)|apply written_ascii].
Qed.

Lemma string_payload_is_raw_witness :
  exists l',
    nextToken (NewLexer (dq "'a\nb' ")) = Ok (mkToken TokenString "a\nb", l').
Proof.
  pose proof (string_payload_is_raw (NewLexer (dq "'a\nb' ")) "" (dq "a\nb' ")) as H.
  destruct H as (_ & _ & _ & _ & (l' & H & _) & _).
  - unfold At. repeat split; vm_compute; reflexivity.
  - exists l'. exact H.
Defined.

Lemma escape_is_not_decoded :
  parse (dq "{'s':'line1\nline2'}") = Ok (VObject (<["s" := VString "line1\nline2"]> ∅))
  /\ String.length "line1\nline2" = 12%nat
  /\ parse (dq "{'s':'line1\nline2'}")
     <> Ok (VObject (<["s" := VString ("line1" +:+ String (byte_of_Z 10) "line2")]> ∅)).
Proof.
  split; [vm_compute; reflexivity|]. split; [reflexivity|].
  vm_compute. discriminate.
Qed.

Lemma all_runes_rest P Q s :
  all_runes Q s = true -> all_runes Q (snd (span P s)) = true.
Proof.
  induction s as [|c s IH]; [reflexivity|]. simpl.
  intros H. destruct (P (rune_of_byte c)); [|exact H].
  apply andb_true_iff in H as [_ H]. simpl. auto.
Qed.

Lemma rune_zero c : rune_of_byte c = 0 -> c = Ascii.zero.
Proof.
  intros H. rewrite <- (ascii_N_embedding c). unfold rune_of_byte in H.
  destruct (N_of_ascii c); [reflexivity|discriminate].
Qed.

(** C4, as the code has it.  When no closing quote follows, [readString]
    stops on the rune 0, which is the end of the input or a zero byte of
    the input, and returns what it has read as a String token; the lexer
    reports nothing.  Without a zero byte the payload is all the text
    after the opening quote and the lexer is at the end of the input;
    with one, the payload ends before the first zero byte and the lexer
    goes on after it. *)
Theorem unterminated_string_is_a_token l pre rem :
  At l pre (String quote rem) ->
  all_runes (fun c => negb (c =? r_quote)) rem = true ->
  let body := fst (span inString rem) in
  let rest := snd (span inString rem) in
  rem = body +:+ rest
  /\ all_runes inString body = true
  /\ (rest = "" \/ exists r, rest = String Ascii.zero r)
  /\ (all_runes inString rem = true -> body = rem /\ rest = "")
  /\ exists l',
       nextToken l = Ok (mkToken TokenString (written body), l')
       /\ At l' (pre +:+ String quote
                           (body +:+ match rest with
                                     | String c _ => String c ""
                                     | EmptyString => ""
                                     end))
                (match rest with String _ r => r | EmptyString => "" end).
Proof.
  intros HAt Hnq body rest.
  split; [symmetry; apply span_app|].
  split; [apply span_all|].
  split.
  { pose proof (span_stop inString rem eq_refl) as Hstop.
    pose proof (all_runes_rest inString _ rem Hnq) as Hrest.
    fold rest in Hstop, Hrest. destruct rest as [|c r]; [now left|right].
    exists r. simpl in Hstop, Hrest. apply andb_true_iff in Hrest as [Hc _].
    unfold inString in Hstop. rewrite Hc in Hstop. simpl in Hstop.
    apply negb_false_iff, Z.eqb_eq, rune_zero in Hstop. now subst c. }
  split.
  { intros Hall. unfold body, rest.
    rewrite <- (app_nil_r rem) at 1 3.
    now rewrite (span_run inString rem "" Hall eq_refl). }
  exact (nextToken_literal l pre rem HAt).
Qed.

Lemma unterminated_string_is_a_token_witness :
  exists l', nextToken (NewLexer (dq "'abc")) = Ok (mkToken TokenString "abc", l').
Proof.
  pose proof (unterminated_string_is_a_token (NewLexer (dq "'abc")) "" "abc") as H.
  destruct H as (_ & _ & _ & _ & l' & H & _).
  - unfold At. repeat split; vm_compute; reflexivity.
  - reflexivity.
  - exists l'. exact H.
Defined.

Lemma unterminated_string_accepted :
  nextToken (NewLexer (dq "'abc"))
  = Ok (mkToken TokenString "abc", mkLexer (dq "'abc") 4 0)
  /\ parse (dq "{} 'abc") = Ok (VObject ∅).
Proof. split; vm_compute; reflexivity. Qed.

(** ** Number literals are not validated *)

Lemma number_start_nospace c :
  IsDigit c || (c =? r_minus) = true ->
  IsSpace c = false
  /\ (c =? r_lbrace) = false /\ (c =? r_rbrace) = false
  /\ (c =? r_lbracket) = false /\ (c =? r_rbracket) = false
  /\ (c =? r_colon) = false /\ (c =? r_comma) = false /\ (c =? r_quote) = false
  /\ inNumber c = true.
Proof.
  unfold IsDigit, IsSpace, inNumber, IsDigit, r_minus, r_lbrace, r_rbrace, r_lbracket,
    r_rbracket, r_colon, r_comma, r_quote, r_dot.
  intros H.
  assert (Hc : 48 <= c <= 57 \/ c = 45).
  { apply orb_true_iff in H as [H|H]; [left|right].
    - apply andb_true_iff in H as [H1 H2]. apply Z.leb_le in H1, H2. lia.
    - now apply Z.eqb_eq in H. }
  repeat split;
    try (apply Z.eqb_neq; lia);
    repeat match goal with
           | |- context [?a =? ?b] => destruct (Z.eqb_spec a b)
           | |- context [?a <=? ?b] => destruct (Z.leb_spec a b)
           end; simpl; try reflexivity; lia.
Qed.

Lemma nextToken_number l pre c run rest :
  At l pre (String c run +:+ rest) ->
  IsDigit (rune_of_byte c) || (rune_of_byte c =? r_minus) = true ->
  all_runes inNumber run = true ->
  inNumber (head_rune rest) = false ->
  exists l',
    nextToken l = Ok (mkToken TokenNumber (run_text (String c run) rest), l')
    /\ At l' (pre +:+ String c run) rest.
Proof.
  intros HAt Hc Hrun Hrest.
  destruct (number_start_nospace _ Hc) as (Hsp & H1 & H2 & H3 & H4 & H5 & H6 & H7 & Hnum).
  rewrite app_cons in HAt.
  rewrite nextToken_nospace; rewrite (At_current _ _ _ HAt); simpl head_rune; [|exact Hsp].
  cbv zeta. rewrite H1, H2, H3, H4, H5, H6, H7, Hc.
  destruct (readNumber_At _ _ _ _ HAt Hnum) as (l' & Hl' & HAt').
  assert (Hspan : span inNumber (String c (run +:+ rest)) = (String c run, rest)).
  { rewrite <- app_cons. apply span_run; [|exact Hrest]. simpl. now rewrite Hnum, Hrun. }
  rewrite Hspan in Hl', HAt'. simpl fst in *. simpl snd in *.
  exists l'. split; [exact Hl'|exact HAt'].
Qed.

(** C7, as the code has it.  A number literal is any run of digits, '.'
    and '-' that starts with a digit or '-'.  The scanner checks nothing
    else: it returns the run as a Number token, whatever its shape, and
    reports no lexical error. *)
Theorem number_scan_never_fails l pre c run rest :
  At l pre (String c run +:+ rest) ->
  IsDigit (rune_of_byte c) || (rune_of_byte c =? r_minus) = true ->
  all_runes inNumber run = true ->
  inNumber (head_rune rest) = false ->
  exists text l',
    nextToken l = Ok (mkToken TokenNumber text, l')
    /\ At l' (pre +:+ String c run) rest
    /\ (rest <> "" -> text = String c run).
Proof.
  intros HAt Hc Hrun Hrest.
  destruct (nextToken_number l pre c run rest HAt Hc Hrun Hrest) as (l' & H & HAt').
  eexists _, l'. split; [exact H|]. split; [exact HAt'|].
  destruct rest; [congruence|reflexivity].
Qed.

Lemma number_scan_never_fails_witness :
  exists l', nextToken (NewLexer "01]") = Ok (mkToken TokenNumber "01", l').
Proof.
  destruct (number_scan_never_fails (NewLexer "01]") "" "0" "1" "]")
    as (text & l' & H & _ & Htext).
  - unfold At. repeat split; vm_compute; reflexivity.
  - reflexivity.
  - reflexivity.
  - reflexivity.
  - exists l'. rewrite <- (Htext ltac:(discriminate)). exact H.
Defined.

Lemma malformed_numbers_accepted :
  parse "[01, -, 1., 1.2.3]"
  = Ok (VArray [VNumber (float64_of_Z 1); VNumber (S754_zero false);
                VNumber (float64_of_Z 1); VNumber (S754_zero false)])
  /\ nextToken (NewLexer "01]") = Ok (mkToken TokenNumber "01", mkLexer "01]" 3 93).
Proof. split; vm_compute; reflexivity. Qed.

(** ** Conversion errors are dropped *)

Lemma ParseFloat_syntax_zero s :
  snd (ParseFloat s) = Some ErrSyntax -> fst (ParseFloat s) = S754_zero false.
Proof.
  unfold ParseFloat.
  destruct (match s with String c r => _ | EmptyString => _ end) as [neg s1].
  destruct (digits s1 0 0%nat) as [[m1 n1] s2].
  destruct (match s2 with String c r => _ | EmptyString => _ end) as [[m2 n2] s3].
  destruct (_ || _); [reflexivity|].
  destruct (decimal_to_float64 neg m2 n2); simpl; congruence.
Qed.

(** C10.  [parseValue] keeps the first result of [ParseFloat] and drops
    the second: when the text of a Number token is not a floating-point
    literal, the value is the 0 that [ParseFloat] returns with its syntax
    error, and parsing goes on. *)
Theorem invalid_number_reads_as_zero fuel p p' :
  Type_ (token p) = TokenNumber ->
  snd (ParseFloat (Value (token p))) = Some ErrSyntax ->
  p_nextToken p = Ok p' ->
  parseValue (S fuel) p = Ok (VNumber (S754_zero false), p').
Proof.
  intros Ht Herr Hnext. simpl. rewrite Ht, Hnext. simpl.
  now rewrite (ParseFloat_syntax_zero _ Herr).
Qed.

Lemma invalid_number_reads_as_zero_witness :
  parseValue 1 (mkParser (mkLexer "[1.2.3]" 7 93) (mkToken TokenNumber "1.2.3"))
  = Ok (VNumber (S754_zero false),
        mkParser (mkLexer "[1.2.3]" 7 0) (mkToken TokenRightBracket "]")).
Proof.
  apply (invalid_number_reads_as_zero 0
           (mkParser (mkLexer "[1.2.3]" 7 93) (mkToken TokenNumber "1.2.3")));
    vm_compute; reflexivity.
Defined.

Example invalid_numbers_in_documents :
  parse "[1.2.3]" = Ok (VArray [VNumber (S754_zero false)])
  /\ parse "[1-2]" = Ok (VArray [VNumber (S754_zero false)])
  /\ ParseFloat "1.2.3" = (S754_zero false, Some ErrSyntax)
  /\ ParseFloat "1-2" = (S754_zero false, Some ErrSyntax)
  /\ (exists p, bind (NewParser (NewLexer "[1.2.3]")) p_nextToken = Ok p
                /\ token p = mkToken TokenNumber "1.2.3").
Proof.
  repeat split; try (vm_compute; reflexivity).
  eexists. split; vm_compute; reflexivity.
Qed.

(** ** The parser is total and fails only by its own panics *)

Lemma good_bind {A B : Type} (Q1 : A -> Prop) (Q2 : B -> Prop) r k :
  good Q1 r -> (forall a, Q1 a -> good Q2 (k a)) -> good Q2 (bind r k).
Proof. destruct r; simpl; auto. Qed.

Lemma tokw_live p : Type_ (token p) <> TokenEOF -> tokw p = 1%nat.
Proof. intros H. unfold tokw. now case_decide. Qed.

Lemma p_nextToken_good p m :
  Wf p m ->
  good (fun p' => exists m', Wf p' m' /\ (m' + tokw p <= m)%nat) (p_nextToken p).
Proof.
  intros (pre & rem & HAt & ->). unfold p_nextToken.
  destruct (nextToken_At _ _ _ HAt)
    as [(t & l' & pre' & rem' & E & HAt' & Hle & Hlt)|(kw & E & _)]; rewrite E; simpl.
  - exists (String.length rem' + tokw (mkParser l' t))%nat. split.
    + now exists pre', rem'.
    + unfold tokw at 1. simpl. case_decide; [lia|]. specialize (Hlt H).
      unfold tokw. case_decide; lia.
  - unfold panic_message. eauto 10.
Qed.

Tactic Notation "next_token" constr(p) constr(m) constr(H)
    "as" ident(p') ident(m') ident(HW) ident(Hm) :=
  apply (good_bind _ _ _ _ (p_nextToken_good p m H));
  intros p' (m' & HW & Hm); simpl.

Lemma parser_good fuel :
  (forall p m, Wf p m -> (3 * m + 2 <= fuel)%nat ->
     good (fun r => below m (snd r)) (parseValue fuel p))
  /\ (forall p m, Wf p m -> tokw p = 1%nat -> (3 * m + 1 <= fuel)%nat ->
     good (fun r => below m (snd r)) (parseObject fuel p))
  /\ (forall obj p m, Wf p m -> (3 * m + 3 <= fuel)%nat ->
     good (fun r => closes TokenRightBrace m (snd r)) (parseObject_loop fuel obj p))
  /\ (forall p m, Wf p m -> tokw p = 1%nat -> (3 * m + 1 <= fuel)%nat ->
     good (fun r => below m (snd r)) (parseArray fuel p))
  /\ (forall arr p m, Wf p m -> (3 * m + 3 <= fuel)%nat ->
     good (fun r => closes TokenRightBracket m (snd r)) (parseArray_loop fuel arr p)).
Proof.
  induction fuel as [|f (IHv & IHo & IHol & IHa & IHal)].
  { repeat split; intros; lia. }
  split; [|split; [|split; [|split]]].
  - (* parseValue *)
    intros p m HW Hf. simpl.
    destruct (Type_ (token p)) eqn:Et;
      try (assert (Hw : tokw p = 1%nat) by (apply tokw_live; congruence));
      try (next_token p m HW as p1 m1 HW1 Hm1; exists m1; split; [assumption|lia]);
      try (simpl; unfold panic_message; eauto 10).
    + apply (good_bind _ _ _ _ (IHo p m HW Hw ltac:(lia))). intros [o p'] H. exact H.
    + apply (good_bind _ _ _ _ (IHa p m HW Hw ltac:(lia))). intros [a p'] H. exact H.
  - (* parseObject *)
    intros p m HW Hw Hf. simpl.
    next_token p m HW as p1 m1 HW1 Hm1.
    apply (good_bind _ _ _ _ (IHol ∅ p1 m1 HW1 ltac:(lia))).
    intros [o p2]; simpl; intros (Ht & m2 & HW2 & Hm2).
    next_token p2 m2 HW2 as p3 m3 HW3 Hm3.
    exists m3. split; [assumption|].
    rewrite tokw_live in Hm3 by congruence. lia.
  - (* parseObject_loop *)
    intros obj p m HW Hf. simpl. unfold tokenIs.
    case_bool_decide as Hrb.
    { simpl. split; [assumption|]. exists m. auto. }
    case_bool_decide as Hstr; simpl; [|unfold panic_message; auto 10].
    next_token p m HW as p1 m1 HW1 Hm1. rewrite tokw_live in Hm1 by congruence.
    case_bool_decide as Hcol; simpl; [|unfold panic_message; auto 10].
    next_token p1 m1 HW1 as p2 m2 HW2 Hm2. rewrite tokw_live in Hm2 by congruence.
    apply (good_bind _ _ _ _ (IHv p2 m2 HW2 ltac:(lia))).
    intros [v p3]; simpl; intros (m3 & HW3 & Hm3).
    assert (Hgo : forall p4 m4, Wf p4 m4 -> (m4 <= m3)%nat ->
              good (fun r => closes TokenRightBrace m (snd r))
                   (parseObject_loop f (<[Value (token p) := v]> obj) p4)).
    { intros p4 m4 HW4 Hm4.
      pose proof (IHol (<[Value (token p) := v]> obj) p4 m4 HW4 ltac:(lia)) as H.
      destruct (parseObject_loop f _ p4) as [[o p5]| |]; simpl in *; auto.
      destruct H as (Ht & m5 & HW5 & Hm5). split; [assumption|].
      exists m5. split; [assumption|lia]. }
    case_bool_decide as Hcomma.
    + next_token p3 m3 HW3 as p4 m4 HW4 Hm4. apply (Hgo _ _ HW4). lia.
    + case_bool_decide as Hrb2; simpl; [|unfold panic_message; auto 10].
      now apply (Hgo _ _ HW3).
  - (* parseArray *)
    intros p m HW Hw Hf. simpl.
    next_token p m HW as p1 m1 HW1 Hm1.
    apply (good_bind _ _ _ _ (IHal [] p1 m1 HW1 ltac:(lia))).
    intros [a p2]; simpl; intros (Ht & m2 & HW2 & Hm2).
    next_token p2 m2 HW2 as p3 m3 HW3 Hm3.
    exists m3. split; [assumption|].
    rewrite tokw_live in Hm3 by congruence. lia.
  - (* parseArray_loop *)
    intros arr p m HW Hf. simpl. unfold tokenIs.
    case_bool_decide as Hrb.
    { simpl. split; [assumption|]. exists m. auto. }
    apply (good_bind _ _ _ _ (IHv p m HW ltac:(lia))).
    intros [v p3]; simpl; intros (m3 & HW3 & Hm3).
    assert (Hgo : forall p4 m4, Wf p4 m4 -> (m4 <= m3)%nat ->
              good (fun r => closes TokenRightBracket m (snd r))
                   (parseArray_loop f (arr ++ [v])%list p4)).
    { intros p4 m4 HW4 Hm4.
      pose proof (IHal (arr ++ [v])%list p4 m4 HW4 ltac:(lia)) as H.
      destruct (parseArray_loop f _ p4) as [[o p5]| |]; simpl in *; auto.
      destruct H as (Ht & m5 & HW5 & Hm5). split; [assumption|].
      exists m5. split; [assumption|lia]. }
    case_bool_decide as Hcomma.
    + next_token p3 m3 HW3 as p4 m4 HW4 Hm4. apply (Hgo _ _ HW4). lia.
    + case_bool_decide as Hrb2; simpl; [|unfold panic_message; auto 10].
      now apply (Hgo _ _ HW3).
Qed.

Lemma NewParser_good s :
  good (fun p => exists m, Wf p m /\ (m <= String.length s)%nat) (NewParser (NewLexer s)).
Proof.
  unfold NewParser.
  assert (HW : Wf (mkParser (NewLexer s) (mkToken TokenString "")) (String.length s + 1)).
  { exists "", s. split; [apply NewLexer_At|reflexivity]. }
  pose proof (p_nextToken_good _ _ HW) as H.
  destruct (p_nextToken _); simpl in *; auto.
  destruct H as (m & HWm & Hm). exists m. split; [assumption|].
  unfold tokw in Hm. simpl in Hm. lia.
Qed.

Lemma parseJSON_good s p m :
  Wf p m -> (m <= String.length s)%nat ->
  good (fun r => (exists o, fst r = VObject o) \/ (exists a, fst r = VArray a))
       (parseJSON (parse_fuel s) p).
Proof.
  intros HW Hm. unfold parseJSON, parse_fuel.
  destruct (parser_good (3 * String.length s + 6)) as (_ & Ho & _ & Ha & _).
  destruct (Type_ (token p)) eqn:Et; try (simpl; unfold panic_message; now auto).
  - apply (good_bind _ _ _ _ (Ho p m HW ltac:(apply tokw_live; congruence) ltac:(lia))).
    intros [o p'] _. simpl. eauto.
  - apply (good_bind _ _ _ _ (Ha p m HW ltac:(apply tokw_live; congruence) ltac:(lia))).
    intros [a p'] _. simpl. eauto.
Qed.

(** C1, as the code has it.  The parser has one way to fail, a Go panic
    whose value is one of the message strings of the source; the panic
    carries no kind and no offset, and nothing in the code recovers from
    it.  So for every input, [parse] either returns an object or an array,
    or panics with one of these messages. *)
Theorem parse_outcomes (s : string) :
  (exists o, parse s = Ok (VObject o))
  \/ (exists a, parse s = Ok (VArray a))
  \/ (exists msg, parse s = Panic msg /\ panic_message msg).
Proof.
  unfold parse. pose proof (NewParser_good s) as Hp.
  destruct (NewParser (NewLexer s)) as [p|msg|]; simpl in *; [|eauto|contradiction].
  destruct Hp as (m & HW & Hm).
  pose proof (parseJSON_good s p m HW Hm) as Hr.
  destruct (parseJSON (parse_fuel s) p) as [[v p']|msg|]; simpl in *; [|eauto|contradiction].
  destruct Hr as [[o ->]|[a ->]]; eauto.
Qed.

Lemma malformed_input_panics :
  parse (dq "{'x': tru}") = Panic "Unexpected keyword: tru"
  /\ parse "42" = Panic "Invalid JSON start"
  /\ ~ returns (parse "42").
Proof.
  split; [vm_compute; reflexivity|]. split; [vm_compute; reflexivity|].
  intros [v H]. vm_compute in H. discriminate.
Qed.

(** ** More fuel changes nothing *)

Lemma bind_mono {A B : Type} (r r' : result A) (k k' : A -> result B) :
  (r <> OutOfFuel -> r' = r) ->
  (forall a, k a <> OutOfFuel -> k' a = k a) ->
  bind r k <> OutOfFuel -> bind r' k' = bind r k.
Proof.
  destruct r; simpl; intros H1 H2 H3.
  - rewrite H1 by discriminate. simpl. now apply H2.
  - now rewrite H1.
  - congruence.
Qed.

Ltac mono_step :=
  match goal with
  | |- bind _ _ <> OutOfFuel -> bind _ _ = bind _ _ =>
      apply bind_mono; [try (intros; reflexivity); auto|intros ?; simpl]
  | |- (if ?b then _ else _) <> OutOfFuel -> _ => destruct b
  | |- _ <> OutOfFuel -> ?x = ?x => intros; reflexivity
  | |- _ <> OutOfFuel -> _ = _ => solve [auto]
  end.

Lemma parser_mono f1 : forall f2, (f1 <= f2)%nat ->
  (forall p, parseValue f1 p <> OutOfFuel -> parseValue f2 p = parseValue f1 p)
  /\ (forall p, parseObject f1 p <> OutOfFuel -> parseObject f2 p = parseObject f1 p)
  /\ (forall obj p, parseObject_loop f1 obj p <> OutOfFuel ->
        parseObject_loop f2 obj p = parseObject_loop f1 obj p)
  /\ (forall p, parseArray f1 p <> OutOfFuel -> parseArray f2 p = parseArray f1 p)
  /\ (forall arr p, parseArray_loop f1 arr p <> OutOfFuel ->
        parseArray_loop f2 arr p = parseArray_loop f1 arr p).
Proof.
  induction f1 as [|f1 IH]; intros f2 Hle.
  { repeat split; intros; simpl in *; congruence. }
  destruct f2 as [|f2]; [lia|].
  destruct (IH f2 ltac:(lia)) as (IHv & IHo & IHol & IHa & IHal).
  split; [|split; [|split; [|split]]].
  - intros p. simpl. destruct (Type_ (token p)); try (intros; reflexivity);
      repeat mono_step.
  - intros p. simpl. repeat mono_step.
  - intros obj p. simpl. repeat mono_step.
  - intros p. simpl. repeat mono_step.
  - intros arr p. simpl. repeat mono_step.
Qed.

Lemma parseJSON_mono f1 f2 p :
  (f1 <= f2)%nat -> parseJSON f1 p <> OutOfFuel -> parseJSON f2 p = parseJSON f1 p.
Proof.
  intros Hle. destruct (parser_mono f1 f2 Hle) as (_ & Ho & _ & Ha & _).
  unfold parseJSON. destruct (Type_ (token p)); try (intros; reflexivity);
    repeat mono_step.
Qed.

(** ** Two parsers that see the same tokens

    [PR] relates two parser states.  When related states hold the same
    lookahead, unless the first holds the end of input, and when fetching
    the next token keeps them related, then whatever the first parser
    returns, the second returns too. *)
Section Simulation.

Variable PR : Parser -> Parser -> Prop.

Hypothesis PR_token : forall p1 p2,
  PR p1 p2 -> Type_ (token p1) <> TokenEOF -> token p2 = token p1.

Hypothesis PR_next : forall p1 p2 p1',
  PR p1 p2 -> Type_ (token p1) <> TokenEOF -> p_nextToken p1 = Ok p1' ->
  exists p2', p_nextToken p2 = Ok p2' /\ PR p1' p2'.

Abbreviation same := (same_upto PR).
Abbreviation closed := (closed_upto PR).

Lemma follows_bind {A B : Type} (R : A -> A -> Prop) (R' : B -> B -> Prop)
    r1 r2 k1 k2 :
  follows R r1 r2 ->
  (forall a1 a2, R a1 a2 -> follows R' (k1 a1) (k2 a2)) ->
  follows R' (bind r1 k1) (bind r2 k2).
Proof.
  intros Hr Hk b1. destruct r1 as [a1| |]; simpl; try discriminate.
  destruct (Hr a1 eq_refl) as (a2 & -> & Ha). simpl. now apply Hk.
Qed.

Lemma follows_ret {A : Type} (R : A -> A -> Prop) a1 a2 :
  R a1 a2 -> follows R (Ok a1) (Ok a2).
Proof. intros H b [= <-]. eauto. Qed.

Lemma follows_panic {A : Type} (R : A -> A -> Prop) msg r2 :
  follows R (Panic msg) r2.
Proof. intros b. discriminate. Qed.

Lemma follows_next p1 p2 :
  PR p1 p2 -> Type_ (token p1) <> TokenEOF ->
  follows PR (p_nextToken p1) (p_nextToken p2).
Proof. intros H NE p1' E. eauto. Qed.

Lemma PR_cases p1 p2 :
  PR p1 p2 ->
  Type_ (token p1) = TokenEOF
  \/ (Type_ (token p1) <> TokenEOF /\ token p2 = token p1).
Proof.
  intros H. destruct (decide (Type_ (token p1) = TokenEOF)); [now left|right].
  split; [assumption|]. now apply PR_token.
Qed.

(** What follows a member or an element: a comma and the next token, or
    the closer. *)
Lemma follows_separator (t : TokenType) msg p1 p2 :
  t <> TokenEOF -> PR p1 p2 ->
  follows PR
    (if tokenIs p1 TokenComma then p_nextToken p1
     else if negb (tokenIs p1 t) then Panic msg else Ok p1)
    (if tokenIs p2 TokenComma then p_nextToken p2
     else if negb (tokenIs p2 t) then Panic msg else Ok p2).
Proof.
  intros Ht H. unfold tokenIs.
  destruct (PR_cases _ _ H) as [E|[NE E]].
  - rewrite E. rewrite bool_decide_eq_false_2 by discriminate.
    rewrite (bool_decide_eq_false_2 (TokenEOF = t)) by congruence.
    apply follows_panic.
  - rewrite E. case_bool_decide; [now apply follows_next|].
    case_bool_decide; simpl; [now apply follows_ret|apply follows_panic].
Qed.

Lemma parser_sim fuel :
  (forall p1 p2, PR p1 p2 ->
     follows same (parseValue fuel p1) (parseValue fuel p2))
  /\ (forall p1 p2, PR p1 p2 -> Type_ (token p1) <> TokenEOF ->
     follows same (parseObject fuel p1) (parseObject fuel p2))
  /\ (forall obj p1 p2, PR p1 p2 ->
     follows (closed TokenRightBrace)
       (parseObject_loop fuel obj p1) (parseObject_loop fuel obj p2))
  /\ (forall p1 p2, PR p1 p2 -> Type_ (token p1) <> TokenEOF ->
     follows same (parseArray fuel p1) (parseArray fuel p2))
  /\ (forall arr p1 p2, PR p1 p2 ->
     follows (closed TokenRightBracket)
       (parseArray_loop fuel arr p1) (parseArray_loop fuel arr p2)).
Proof.
  induction fuel as [|f (IHv & IHo & IHol & IHa & IHal)].
  { repeat split; intros; intros a; discriminate. }
  split; [|split; [|split; [|split]]].
  - (* parseValue *)
    intros p1 p2 H. simpl.
    destruct (PR_cases _ _ H) as [E|[NE E]].
    { rewrite E. apply follows_panic. }
    rewrite E.
    destruct (Type_ (token p1)) eqn:Et; try apply follows_panic;
      try (apply (follows_bind PR same);
           [apply follows_next; [assumption|congruence]|];
           intros q1 q2 Hq; apply follows_ret; now split).
    + apply (follows_bind same same); [apply IHo; [assumption|congruence]|].
      intros [o1 q1] [o2 q2] [Ho Hq]. simpl in *. subst.
      apply follows_ret. now split.
    + apply (follows_bind same same); [apply IHa; [assumption|congruence]|].
      intros [o1 q1] [o2 q2] [Ho Hq]. simpl in *. subst.
      apply follows_ret. now split.
  - (* parseObject *)
    intros p1 p2 H NE. simpl.
    apply (follows_bind PR same); [now apply follows_next|]. intros q1 q2 Hq.
    apply (follows_bind (closed TokenRightBrace) same); [now apply IHol|].
    intros [o1 s1] [o2 s2] [[Ho Hs] Ht]. simpl in *. subst.
    apply (follows_bind PR same); [apply follows_next; [assumption|congruence]|].
    intros t1 t2 HT. apply follows_ret. now split.
  - (* parseObject_loop *)
    intros obj p1 p2 H. simpl. unfold tokenIs.
    destruct (PR_cases _ _ H) as [E|[NE E]].
    { rewrite E. simpl. apply follows_panic. }
    rewrite E. case_bool_decide as Hrb.
    { apply follows_ret. repeat split; auto. }
    case_bool_decide as Hstr; simpl; [|apply follows_panic].
    apply (follows_bind PR (closed TokenRightBrace)); [now apply follows_next|].
    intros q1 q2 Hq.
    destruct (PR_cases _ _ Hq) as [Eq|[NEq Eq]].
    { rewrite Eq. simpl. apply follows_panic. }
    rewrite Eq. case_bool_decide as Hcol; simpl; [|apply follows_panic].
    apply (follows_bind PR (closed TokenRightBrace)); [now apply follows_next|].
    intros s1 s2 Hs.
    apply (follows_bind same (closed TokenRightBrace)); [now apply IHv|].
    intros [v1 t1] [v2 t2] [Hv HT]. simpl in *. subst.
    apply (follows_bind PR (closed TokenRightBrace)); [now apply follows_separator|].
    intros u1 u2 Hu. now apply IHol.
  - (* parseArray *)
    intros p1 p2 H NE. simpl.
    apply (follows_bind PR same); [now apply follows_next|]. intros q1 q2 Hq.
    apply (follows_bind (closed TokenRightBracket) same); [now apply IHal|].
    intros [o1 s1] [o2 s2] [[Ho Hs] Ht]. simpl in *. subst.
    apply (follows_bind PR same); [apply follows_next; [assumption|congruence]|].
    intros t1 t2 HT. apply follows_ret. now split.
  - (* parseArray_loop *)
    intros arr p1 p2 H. simpl. unfold tokenIs.
    destruct (PR_cases _ _ H) as [E|[NE E]].
    { rewrite E. simpl.
      destruct f as [|f']; [intros a; discriminate|]. simpl. rewrite E.
      apply follows_panic. }
    rewrite E. case_bool_decide as Hrb.
    { apply follows_ret. repeat split; auto. }
    apply (follows_bind same (closed TokenRightBracket)); [now apply IHv|].
    intros [v1 t1] [v2 t2] [Hv HT]. simpl in *. subst.
    apply (follows_bind PR (closed TokenRightBracket)); [now apply follows_separator|].
    intros u1 u2 Hu. now apply IHal.
Qed.

Lemma parseJSON_sim fuel p1 p2 :
  PR p1 p2 -> follows same (parseJSON fuel p1) (parseJSON fuel p2).
Proof.
  intros H. destruct (parser_sim fuel) as (_ & Ho & _ & Ha & _).
  unfold parseJSON. destruct (PR_cases _ _ H) as [E|[NE E]].
  { rewrite E. apply follows_panic. }
  rewrite E. destruct (Type_ (token p1)) eqn:Et; try apply follows_panic.
  - apply (follows_bind same same); [apply Ho; [assumption|congruence]|].
    intros [o1 q1] [o2 q2] [Ho' Hq]. simpl in *. subst. apply follows_ret. now split.
  - apply (follows_bind same same); [apply Ha; [assumption|congruence]|].
    intros [o1 q1] [o2 q2] [Ho' Hq]. simpl in *. subst. apply follows_ret. now split.
Qed.

End Simulation.

(** ** Lexing a laid-out document *)

Lemma nextToken_gap l pre w rem :
  At l pre (w +:+ rem) -> all_runes IsSpace w = true ->
  IsSpace (head_rune rem) = false ->
  nextToken l = nextToken (skipWhitespace l)
  /\ At (skipWhitespace l) (pre +:+ w) rem.
Proof.
  intros HAt Hw Hrem. split; [exact (nextToken_skip _ _ _ HAt)|].
  pose proof (skipWhitespace_At _ _ _ HAt) as H.
  now rewrite (span_run IsSpace w rem Hw Hrem) in H.
Qed.

Lemma nextToken_eof l pre w :
  At l pre w -> all_runes IsSpace w = true ->
  nextToken l = Ok (mkToken TokenEOF "", skipWhitespace l)
  /\ At (skipWhitespace l) (pre +:+ w) "".
Proof.
  intros HAt Hw. rewrite <- (app_nil_r w) in HAt.
  destruct (nextToken_gap _ _ _ _ HAt Hw eq_refl) as [E HAt1].
  split; [|exact HAt1]. rewrite E.
  assert (Hsp : IsSpace (current (skipWhitespace l)) = false)
    by (now rewrite (At_current _ _ _ HAt1)).
  rewrite (nextToken_nospace _ Hsp), (At_current _ _ _ HAt1). reflexivity.
Qed.

Lemma text_head_nospace x next :
  lexeme_ok x = true -> IsSpace (head_rune (text x +:+ next)) = false.
Proof.
  destruct x as [c|body|run|kw]; simpl.
  - now destruct c.
  - reflexivity.
  - intros [Hc _]%andb_true_iff. destruct run as [|c run]; [discriminate|].
    rewrite app_cons. simpl in *. now apply number_start_nospace.
  - intros H. repeat (apply orb_true_iff in H as [H|H]);
      apply bool_decide_eq_true_1 in H; now subst.
Qed.

Lemma nextToken_keyword l pre kw next (t : TokenType) :
  At l pre (kw +:+ next) ->
  nextToken l = readKeyword l ->
  all_runes IsLetter kw = true -> kw <> "" ->
  nonempty next = true -> IsLetter (head_rune next) = false ->
  keyword_result kw = (fun l' => Ok (mkToken t kw, l')) ->
  exists l', nextToken l = Ok (mkToken t kw, l') /\ At l' (pre +:+ kw) next.
Proof.
  intros HAt -> Hkw Hne Hnext Hstop Hres.
  destruct kw as [|c kw]; [congruence|]. rewrite app_cons in HAt.
  simpl in Hkw. apply andb_true_iff in Hkw as [Hc Hkw].
  destruct (readKeyword_At _ _ _ _ HAt Hc) as (l' & Hl' & HAt').
  assert (Hspan : span IsLetter (String c (kw +:+ next)) = (String c kw, next)).
  { rewrite <- app_cons. apply span_run; [|exact Hstop]. simpl. now rewrite Hc, Hkw. }
  rewrite Hspan in Hl', HAt'. simpl fst in *. simpl snd in *.
  exists l'. split; [|exact HAt'].
  rewrite Hl'. destruct next; [discriminate|]. simpl run_text. now rewrite Hres.
Qed.

(** The lexer returns the token of the next lexeme and stops right after
    its text. *)
Lemma nextToken_lexeme l pre w x next :
  At l pre (w +:+ text x +:+ next) ->
  all_runes IsSpace w = true -> lexeme_ok x = true -> follow_ok x next = true ->
  exists l', nextToken l = Ok (token_of x, l')
             /\ At l' (pre +:+ w +:+ text x) next.
Proof.
  intros HAt Hw Hx Hnext.
  destruct (nextToken_gap _ _ _ _ HAt Hw (text_head_nospace x next Hx)) as [E HAt1].
  rewrite E, <- app_assoc. clear E.
  set (l1 := skipWhitespace l) in *. set (pre1 := pre +:+ w) in *.
  assert (Hsp : IsSpace (current l1) = false)
    by (rewrite (At_current _ _ _ HAt1); now apply text_head_nospace).
  destruct x as [c|body|run|kw].
  - exists (advance l1). split.
    + rewrite nextToken_nospace by exact Hsp. rewrite (At_current _ _ _ HAt1).
      now destruct c.
    + destruct c; simpl in HAt1 |- *; rewrite app_cons, app_nil_l in HAt1;
        now apply advance_At in HAt1.
  - simpl in Hx, HAt1 |- *. rewrite app_cons, app_assoc, app_cons, app_nil_l in HAt1.
    now apply nextToken_string.
  - simpl in Hx, Hnext, HAt1 |- *.
    apply andb_true_iff in Hx as [Hc Hrun].
    apply andb_true_iff in Hnext as [Hne Hstop]. apply negb_true_iff in Hstop.
    destruct run as [|c run]; [discriminate|]. simpl in Hc, Hrun.
    apply andb_true_iff in Hrun as [_ Hrun].
    destruct (nextToken_number l1 pre1 c run next HAt1 Hc Hrun Hstop) as (l' & H & HAt').
    exists l'. split; [|exact HAt']. rewrite H. now destruct next.
  - simpl in Hx, Hnext, HAt1 |- *.
    apply andb_true_iff in Hnext as [Hne Hstop]. apply negb_true_iff in Hstop.
    assert (Hread : forall k, kw = k -> IsLetter (head_rune k) = true ->
              (IsDigit (head_rune k) || (head_rune k =? r_minus)) = false ->
              nextToken l1 = readKeyword l1).
    { intros k -> Hl Hd. rewrite nextToken_nospace by exact Hsp.
      rewrite (At_current _ _ _ HAt1). destruct k as [|c k]; [discriminate|].
      rewrite app_cons. simpl head_rune in *. cbv zeta.
      repeat match goal with
             | |- context [rune_of_byte c =? ?k] =>
                 destruct (Z.eqb_spec (rune_of_byte c) k) as [Heq|_];
                 [rewrite Heq in Hl; discriminate Hl|]
             end.
      now rewrite Hd, Hl. }
    repeat (apply orb_true_iff in Hx as [Hx|Hx]);
      apply bool_decide_eq_true_1 in Hx; subst kw;
      (eapply nextToken_keyword;
       [exact HAt1|now apply (Hread _ eq_refl)|reflexivity|discriminate
       |exact Hne|exact Hstop|reflexivity]).
Qed.

(** ** The result does not depend on the fuel *)

Lemma bind_Ok {A B : Type} (r : result A) (k : A -> result B) b :
  bind r k = Ok b -> exists a, r = Ok a /\ k a = Ok b.
Proof. destruct r; simpl; try discriminate. eauto. Qed.

Lemma parse_any_fuel s p f v p' :
  NewParser (NewLexer s) = Ok p -> parseJSON f p = Ok (v, p') -> parse s = Ok v.
Proof.
  intros Hp Hf. pose proof (NewParser_good s) as Hg. rewrite Hp in Hg.
  destruct Hg as (m & HW & Hm).
  pose proof (parseJSON_good s p m HW Hm) as Hgood.
  assert (HF : parseJSON (parse_fuel s) p = Ok (v, p')).
  { destruct (Nat.le_ge_cases f (parse_fuel s)) as [Hle|Hle].
    - rewrite (parseJSON_mono _ _ p Hle); [exact Hf|congruence].
    - rewrite <- Hf. symmetry. apply parseJSON_mono; [exact Hle|].
      intros E. now rewrite E in Hgood. }
  unfold parse. rewrite Hp. simpl. now rewrite HF.
Qed.

Lemma parse_transfer (PR : Parser -> Parser -> Prop) s1 s2 v :
  (forall p1 p2, PR p1 p2 -> Type_ (token p1) <> TokenEOF -> token p2 = token p1) ->
  (forall p1 p2 p1', PR p1 p2 -> Type_ (token p1) <> TokenEOF ->
     p_nextToken p1 = Ok p1' -> exists p2', p_nextToken p2 = Ok p2' /\ PR p1' p2') ->
  PR (mkParser (NewLexer s1) (mkToken TokenString ""))
     (mkParser (NewLexer s2) (mkToken TokenString "")) ->
  parse s1 = Ok v -> parse s2 = Ok v.
Proof.
  intros Htok Hnext H0 H. unfold parse in H.
  apply bind_Ok in H as (p1 & Hp1 & H).
  apply bind_Ok in H as ([v1 p1'] & Hj & [= <-]).
  destruct (Hnext _ _ p1 H0 ltac:(discriminate) Hp1) as (p2 & Hp2 & HPR).
  destruct (parseJSON_sim PR Htok Hnext _ p1 p2 HPR _ Hj) as ([v2 p2'] & Hj2 & [Hv _]).
  simpl in Hv. subst v2. exact (parse_any_fuel s2 p2 _ _ _ Hp2 Hj2).
Qed.

(** ** Trailing content *)

Lemma lay_app items tail extra :
  lay items (tail +:+ extra) = lay items tail +:+ extra.
Proof.
  induction items as [|[w x] r IH]; [reflexivity|].
  simpl. now rewrite IH, !app_assoc.
Qed.

Lemma follow_ok_app x next more :
  follow_ok x next = true -> follow_ok x (next +:+ more) = true.
Proof.
  destruct x; simpl; auto; destruct next; simpl; auto; discriminate.
Qed.

Lemma span_gap w e :
  all_runes IsSpace w = true ->
  snd (span IsSpace (w +:+ e)) = snd (span IsSpace e).
Proof.
  induction w as [|c w IH]; [reflexivity|].
  rewrite app_cons. simpl.
  intros [Hc Hw]%andb_true_iff. rewrite Hc. simpl. auto.
Qed.

Section Trailing.

Variables (tail extra : string).
Hypothesis tail_space : all_runes IsSpace tail = true.
Hypothesis extra_start : IsLetter (head_rune (snd (span IsSpace extra))) = false.

Abbreviation cut_short := (cut_short_by tail extra).

Lemma cut_short_token p1 p2 :
  cut_short p1 p2 -> Type_ (token p1) <> TokenEOF -> token p2 = token p1.
Proof. intros [E|[E _]] NE; [contradiction|exact E]. Qed.

Lemma cut_short_next p1 p2 p1' :
  cut_short p1 p2 -> Type_ (token p1) <> TokenEOF -> p_nextToken p1 = Ok p1' ->
  exists p2', p_nextToken p2 = Ok p2' /\ cut_short p1' p2'.
Proof.
  intros [E|(_ & items & pre1 & pre2 & Hok & HAt1 & HAt2)] NE Hp1; [contradiction|].
  unfold p_nextToken in *. apply bind_Ok in Hp1 as ([t l1'] & Hn1 & [= <-]).
  destruct items as [|[w x] r].
  - simpl in HAt1, HAt2.
    destruct (nextToken_eof _ _ _ HAt1 tail_space) as [E1 _].
    rewrite E1 in Hn1. injection Hn1 as <- <-.
    destruct (nextToken_At _ _ _ HAt2)
      as [(t2 & l2' & pre' & rem' & E2 & _)|(kw & _ & Hletter)].
    + rewrite E2. simpl. eexists. split; [reflexivity|]. now left.
    + rewrite (span_gap _ _ tail_space), extra_start in Hletter. discriminate.
  - simpl in Hok, HAt1, HAt2.
    apply andb_true_iff in Hok as [[[Hw Hx]%andb_true_iff Hf]%andb_true_iff Hr].
    destruct (nextToken_lexeme _ _ _ _ _ HAt1 Hw Hx Hf) as (l1 & E1 & HAt1').
    rewrite E1 in Hn1. injection Hn1 as <- <-.
    assert (Hf2 : follow_ok x (lay r (tail +:+ extra)) = true)
      by (rewrite lay_app; now apply follow_ok_app).
    destruct (nextToken_lexeme _ _ _ _ _ HAt2 Hw Hx Hf2) as (l2 & E2 & HAt2').
    rewrite E2. simpl. eexists. split; [reflexivity|]. right.
    split; [reflexivity|]. exists r. simpl. eauto.
Qed.

End Trailing.



(** Why the document has to end with its last token: a run of letters
    that reaches the end of the input is compared without its last byte,
    so a byte appended to it changes the word the lexer sees. *)
Example trailing_word_at_the_end :
  parse "{}nulll" = Ok (VObject ∅)
  /\ parse "{}nulll1" = Panic "Unexpected keyword: nulll".
Proof. split; vm_compute; reflexivity. Qed.


(** ** White space between tokens *)

Lemma is_ws_kind r :
  is_ws r = true -> IsSpace r = true /\ inNumber r = false /\ IsLetter r = false.
Proof.
  unfold is_ws. intros H.
  assert (Hr : r = 32 \/ r = 9 \/ r = 10 \/ r = 13).
  { repeat (apply orb_true_iff in H as [H|H]); apply Z.eqb_eq in H; auto. }
  destruct Hr as [->|[->|[->| ->]]]; repeat split; reflexivity.
Qed.

Lemma ws_inserted_refl s : ws_inserted s s.
Proof. induction s; constructor; auto. Qed.

Lemma ws_inserted_app a a' b b' :
  ws_inserted a a' -> ws_inserted b b' -> ws_inserted (a +:+ b) (a' +:+ b').
Proof.
  intros Ha Hb. induction Ha; rewrite ?app_nil_l, ?app_cons; try constructor; auto.
Qed.

Lemma ws_inserted_space w w' :
  ws_inserted w w' -> all_runes IsSpace w = true -> all_runes IsSpace w' = true.
Proof.
  induction 1 as [|c s s' _ IH|c s s' Hc _ IH]; simpl; auto.
  - intros [-> Hs]%andb_true_iff. auto.
  - intros Hs. apply is_ws_kind in Hc as [-> _]. auto.
Qed.

Lemma ws_inserted_lay items items' tail tail' :
  respaced items items' -> ws_inserted tail tail' ->
  ws_inserted (lay items tail) (lay items' tail').
Proof.
  intros H Ht. induction H as [|[w x] [w' x'] r r' [Hx Hw] _ IH]; [exact Ht|].
  simpl in *. subst x'.
  apply ws_inserted_app; [exact Hw|].
  apply ws_inserted_app; [apply ws_inserted_refl|exact IH].
Qed.

Lemma ws_inserted_follow x s s' :
  ws_inserted s s' -> follow_ok x s = true -> follow_ok x s' = true.
Proof.
  intros H. destruct x; simpl; auto;
    (induction H as [|c s s' _ _|c s s' Hc _ _]; simpl; auto;
     apply is_ws_kind in Hc as (_ & Hn & Hl); now rewrite ?Hn, ?Hl).
Qed.

Lemma respaced_ok items items' tail tail' :
  respaced items items' -> ws_inserted tail tail' ->
  laid_ok items tail = true -> laid_ok items' tail' = true.
Proof.
  intros H Ht. induction H as [|[w x] [w' x'] r r' [Hx Hw] Hr IH]; [auto|].
  simpl in *. subst x'.
  intros [[[Hsp Hxo]%andb_true_iff Hf]%andb_true_iff Hok]%andb_true_iff.
  rewrite (ws_inserted_space _ _ Hw Hsp), Hxo, (IH Hok).
  now rewrite (ws_inserted_follow x _ _ (ws_inserted_lay _ _ _ _ Hr Ht) Hf).
Qed.

Lemma respaced_sym_lexemes items items' :
  respaced items items' -> map snd items' = map snd items.
Proof.
  induction 1 as [|a b r r' [Hx _] _ IH]; [reflexivity|].
  simpl. now rewrite IH, Hx.
Qed.

Lemma Laid_next l xs :
  Laid l xs ->
  exists l', nextToken l = Ok (match xs with
                               | [] => mkToken TokenEOF ""
                               | x :: _ => token_of x
                               end, l')
             /\ Laid l' (tl xs).
Proof.
  intros (items & tail & pre & <- & Hok & Htail & HAt).
  destruct items as [|[w x] r]; simpl in *.
  - destruct (nextToken_eof _ _ _ HAt Htail) as [E HAt'].
    eexists. split; [exact E|]. exists [], "", (pre +:+ tail). auto.
  - apply andb_true_iff in Hok as [[[Hw Hx]%andb_true_iff Hf]%andb_true_iff Hr].
    destruct (nextToken_lexeme _ _ _ _ _ HAt Hw Hx Hf) as (l' & E & HAt').
    exists l'. split; [exact E|]. exists r, tail. eauto.
Qed.

Lemma same_lexemes_next p1 p2 p1' :
  same_lexemes p1 p2 -> p_nextToken p1 = Ok p1' ->
  exists p2', p_nextToken p2 = Ok p2' /\ same_lexemes p1' p2'.
Proof.
  intros (_ & xs & H1 & H2) Hp1. unfold p_nextToken in *.
  destruct (Laid_next _ _ H1) as (l1 & E1 & H1').
  destruct (Laid_next _ _ H2) as (l2 & E2 & H2').
  rewrite E1 in Hp1. simpl in Hp1. injection Hp1 as <-.
  rewrite E2. simpl. eexists. split; [reflexivity|].
  split; [reflexivity|]. exists (tl xs). auto.
Qed.

Lemma same_lexemes_start items tail items' tail' :
  laid_ok items tail = true -> all_runes IsSpace tail = true ->
  laid_ok items' tail' = true -> all_runes IsSpace tail' = true ->
  map snd items' = map snd items ->
  same_lexemes (mkParser (NewLexer (lay items tail)) (mkToken TokenString ""))
               (mkParser (NewLexer (lay items' tail')) (mkToken TokenString "")).
Proof.
  intros Hok Ht Hok' Ht' Hmap. split; [reflexivity|].
  exists (map snd items). split.
  - exists items, tail, "". split; [reflexivity|]. split; [exact Hok|].
    split; [exact Ht|apply NewLexer_At].
  - exists items', tail', "". split; [exact Hmap|]. split; [exact Hok'|].
    split; [exact Ht'|apply NewLexer_At].
Qed.




(** ** Repeated keys *)

Lemma store_snoc obj members k v :
  store obj (members ++ [(k, v)]) = <[k := v]> (store obj members).
Proof. unfold store. now rewrite foldl_app. Qed.

Lemma parseObject_loop_members fuel : forall obj acc p,
  parseObject_loop fuel (store obj acc) p
  = in_map obj (parseObject_members fuel acc p).
Proof.
  induction fuel as [|f IH]; intros obj acc p; [reflexivity|]. simpl.
  destruct (tokenIs p TokenRightBrace); [reflexivity|].
  destruct (negb (tokenIs p TokenString)); [reflexivity|].
  destruct (p_nextToken p) as [p1| |]; simpl; try reflexivity.
  destruct (negb (tokenIs p1 TokenColon)); [reflexivity|].
  destruct (p_nextToken p1) as [p2| |]; simpl; try reflexivity.
  destruct (parseValue f p2) as [[v p3]| |]; simpl; try reflexivity.
  destruct (if tokenIs p3 TokenComma then _ else _) as [p4| |]; simpl; try reflexivity.
  now rewrite <- IH, store_snoc.
Qed.

Lemma store_lookup members : forall obj k,
  store obj members !! k
  = match last_value k members with
    | Some v => Some v
    | None => obj !! k
    end.
Proof.
  induction members as [|[k' v] r IH]; intros obj k; [reflexivity|].
  change (store obj ((k', v) :: r)) with (store (<[k' := v]> obj) r).
  rewrite IH. simpl. destruct (last_value k r); [reflexivity|].
  rewrite lookup_insert. now destruct (decide (k' = k)).
Qed.

(** Whenever the loop reads the members of an object, [parseObject]
    returns the map in which they have been stored one after the other. *)
Lemma parseObject_stores_members f p p1 members q p' :
  p_nextToken p = Ok p1 ->
  parseObject_members f [] p1 = Ok (members, q) ->
  p_nextToken q = Ok p' ->
  exists obj,
    parseObject (S f) p = Ok (obj, p')
    /\ forall k, obj !! k = last_value k members.
Proof.
  intros Hp1 Hm Hq. exists (store ∅ members). split.
  - simpl. rewrite Hp1. simpl.
    change (parseObject_loop f ∅ p1) with (parseObject_loop f (store ∅ []) p1).
    rewrite parseObject_loop_members, Hm. simpl. now rewrite Hq.
  - intros k. rewrite store_lookup, lookup_empty. now destruct (last_value k members).
Qed.

(** Conversely, an object that [parseObject] returns is the store of the
    members read. *)
Lemma parseObject_has_members f p obj p' :
  parseObject (S f) p = Ok (obj, p') ->
  exists p1 members q,
    p_nextToken p = Ok p1
    /\ parseObject_members f [] p1 = Ok (members, q)
    /\ p_nextToken q = Ok p'
    /\ obj = store ∅ members.
Proof.
  simpl. intros H.
  apply bind_Ok in H as (p1 & Hp1 & H).
  change (parseObject_loop f ∅ p1) with (parseObject_loop f (store ∅ []) p1) in H.
  rewrite parseObject_loop_members in H. unfold in_map in H.
  apply bind_Ok in H as ([o q] & Hl & H).
  apply bind_Ok in Hl as ([members q'] & Hm & [= <- <-]).
  apply bind_Ok in H as (p2 & Hq & [= <- <-]).
  exists p1, members, q'. auto.
Qed.

Example parse_repeated_key :
  parse (dq "{'a':1,'a':2}") = Ok (VObject (<["a" := VNumber (float64_of_Z 2)]> ∅)).
Proof. vm_compute. reflexivity. Qed.

(** * Further properties of the lexer *)

(** ** The cursor stays inside the input *)

Lemma readString_loop_input n : forall sb l sb' l',
  readString_loop n sb l = (sb', l') -> input l' = input l.
Proof.
  induction n as [|n IH]; intros sb l sb' l'; simpl.
  - now intros [= _ <-].
  - destruct (inString (current l)); [|now intros [= _ <-]].
    intros H. rewrite (IH _ _ _ _ H). unfold advance. now destruct (_ <? _).
Qed.

Ltac lexer_of E :=
  match type of E with
  | Ok (_, ?x) = Ok (_, ?y) =>
      let H := fresh in assert (H : x = y) by congruence; rewrite <- H
  | (_, ?x) = (_, ?y) =>
      let H := fresh in assert (H : x = y) by congruence; rewrite <- H
  end.

(** [nextToken] never changes the input. *)
Lemma nextToken_input l t l' : nextToken l = Ok (t, l') -> input l' = input l.
Proof.
  assert (Hs : input (skipWhitespace l) = input l) by apply scan_input.
  assert (Ha : forall x, input (advance x) = input x)
    by (intros x; unfold advance; now destruct (_ <? _)).
  unfold nextToken.
  repeat match goal with
         | |- (if ?b then _ else _) = _ -> _ => destruct b
         end;
    try (intros E; lexer_of E; now rewrite ?Ha, ?Hs).
  - unfold readString. destruct (readString_loop _ _ _) as [sb l3] eqn:El.
    intros E. lexer_of E. rewrite Ha, (readString_loop_input _ _ _ _ _ El).
    now rewrite Ha.
  - unfold readNumber. intros E. apply bind_Ok in E as (v & _ & E).
    lexer_of E. now rewrite scan_input.
  - unfold readKeyword. intros E. apply bind_Ok in E as (v & _ & E).
    repeat case_decide; try discriminate; lexer_of E; now rewrite scan_input.
Qed.

Lemma reachable_At s l : reachable s l -> exists pre rem, At l pre rem /\ s = pre +:+ rem.
Proof.
  induction 1 as [|l _ (pre & rem & HAt & Hs)|l t l' _ (pre & rem & HAt & Hs) Hn].
  - exists "", s. split; [apply NewLexer_At|reflexivity].
  - destruct rem as [|c r].
    + rewrite (advance_At_nil _ _ HAt). eauto.
    + exists (pre +:+ String c ""), r. split; [now apply advance_At|].
      now rewrite app_snoc.
  - destruct (nextToken_At _ _ _ HAt)
      as [(t2 & l2 & pre' & rem' & E & HAt' & _)|(kw & E & _)]; rewrite E in Hn.
    + injection Hn as <- <-. exists pre', rem'. split; [assumption|].
      destruct HAt as (Hi & _). destruct HAt' as (Hi' & _).
      assert (Hin : input l2 = input l) by exact (nextToken_input _ _ _ E).
      congruence.
    + discriminate.
Qed.

(** X1.  In every state the lexer can reach, the input is untouched, [pos]
    lies between 0 and the length of the input, and [current] is either
    the byte just before [pos] or, with [pos] at the end of the input, 0. *)
Theorem cursor_in_bounds s l :
  reachable s l ->
  input l = s
  /\ 0 <= pos l <= len s
  /\ ((1 <= pos l /\ current l = index s (pos l - 1))
      \/ (pos l = len s /\ current l = 0)).
Proof.
  intros H. destruct (reachable_At _ _ H) as (pre & rem & (Hi & Hc & Hp) & ->).
  split; [exact Hi|]. rewrite len_app.
  pose proof (len_nonneg pre). pose proof (len_nonneg rem).
  destruct rem as [|c r].
  - unfold len at 2 4. simpl. split; [lia|]. right. split; [lia|exact Hc].
  - rewrite len_cons in *. pose proof (len_nonneg r). split; [lia|]. left.
    split; [lia|]. rewrite Hc, Hp. simpl.
    replace (len pre + 1 - 1) with (len pre) by lia. now rewrite index_app.
Qed.

Lemma cursor_in_bounds_witness :
  input (advance (NewLexer "[1]")) = "[1]"
  /\ 0 <= pos (advance (NewLexer "[1]")) <= len "[1]"
  /\ ((1 <= pos (advance (NewLexer "[1]"))
       /\ current (advance (NewLexer "[1]")) = index "[1]" (pos (advance (NewLexer "[1]")) - 1))
      \/ (pos (advance (NewLexer "[1]")) = len "[1]"
          /\ current (advance (NewLexer "[1]")) = 0)).
Proof.
  apply (cursor_in_bounds "[1]" (advance (NewLexer "[1]"))).
  apply reach_advance, reach_new.
Defined.

(** ** The lexer fails on unknown keywords only *)

(** X2.  From every state the lexer can reach, [nextToken] returns a
    token, or panics with "Unexpected keyword: ..." and then the first
    byte after the white space is a letter.  It never fails on a slice and
    nothing else makes it panic. *)
Theorem nextToken_only_keyword_panic s l :
  reachable s l ->
  (exists t l', nextToken l = Ok (t, l'))
  \/ (exists kw, nextToken l = Panic ("Unexpected keyword: " +:+ kw)
                 /\ IsLetter (current (skipWhitespace l)) = true).
Proof.
  intros H. destruct (reachable_At _ _ H) as (pre & rem & HAt & _).
  destruct (nextToken_At _ _ _ HAt)
    as [(t & l' & _ & _ & E & _)|(kw & E & Hl)]; [left; eauto|right].
  exists kw. split; [exact E|].
  now rewrite (At_current _ _ _ (skipWhitespace_At _ _ _ HAt)).
Qed.

Lemma nextToken_only_keyword_panic_witness :
  (exists t l', nextToken (NewLexer " nil") = Ok (t, l'))
  \/ (exists kw, nextToken (NewLexer " nil") = Panic ("Unexpected keyword: " +:+ kw)
                 /\ IsLetter (current (skipWhitespace (NewLexer " nil"))) = true).
Proof. apply (nextToken_only_keyword_panic " nil"). apply reach_new. Defined.

(** ** The end of input is final *)

Lemma nextToken_eof_state l t l' :
  nextToken l = Ok (t, l') -> Type_ t = TokenEOF ->
  t = eof_token /\ l' = skipWhitespace l.
Proof.
  unfold nextToken.
  repeat match goal with
         | |- (if ?b then _ else _) = _ -> _ => destruct b
         end;
    try (intros [= <- <-]; simpl; (discriminate || auto)).
  - unfold readString. destruct (readString_loop _ _ _).
    intros [= <- <-]. discriminate.
  - unfold readNumber. intros E. apply bind_Ok in E as (v & _ & [= <- <-]).
    discriminate.
  - unfold readKeyword. intros E. apply bind_Ok in E as (v & _ & E).
    repeat case_decide; try discriminate; injection E as <- <-; discriminate.
Qed.

(** X3.  Once [nextToken] has returned the end-of-input token, at the end
    of the input or at a byte that starts no token, every further call
    returns it again and leaves the lexer where it is. *)
Theorem eof_is_final s l t l' :
  reachable s l ->
  nextToken l = Ok (t, l') -> Type_ t = TokenEOF ->
  t = mkToken TokenEOF "" /\ nextToken l' = Ok (t, l').
Proof.
  intros H E Ht. destruct (reachable_At _ _ H) as (pre & rem & HAt & _).
  destruct (nextToken_eof_state _ _ _ E Ht) as [-> ->]. split; [reflexivity|].
  now rewrite <- (nextToken_skip _ _ _ HAt).
Qed.

Lemma eof_is_final_witness :
  nextToken (mkLexer " @1" 2 64) = Ok (mkToken TokenEOF "", mkLexer " @1" 2 64).
Proof.
  apply (eof_is_final " @1" (NewLexer " @1") (mkToken TokenEOF "") (mkLexer " @1" 2 64)).
  - apply reach_new.
  - vm_compute. reflexivity.
  - reflexivity.
Defined.

(** ** Keywords *)

Lemma letter_start c :
  IsLetter c = true ->
  IsSpace c = false
  /\ (c =? r_lbrace) = false /\ (c =? r_rbrace) = false
  /\ (c =? r_lbracket) = false /\ (c =? r_rbracket) = false
  /\ (c =? r_colon) = false /\ (c =? r_comma) = false /\ (c =? r_quote) = false
  /\ (IsDigit c || (c =? r_minus)) = false.
Proof.
  unfold IsLetter, IsSpace, IsDigit, r_minus, r_lbrace, r_rbrace, r_lbracket,
    r_rbracket, r_colon, r_comma, r_quote.
  intros H.
  assert (Hc : 65 <= c <= 90 \/ 97 <= c <= 122 \/ c = 170 \/ c = 181 \/ c = 186
               \/ 192 <= c <= 214 \/ 216 <= c <= 246 \/ 248 <= c <= 255).
  { repeat (apply orb_true_iff in H as [H|H]);
      try (apply andb_true_iff in H as [H1 H2]; apply Z.leb_le in H1, H2);
      try apply Z.eqb_eq in H; lia. }
  clear H.
  repeat split;
    repeat match goal with
           | |- context [?a =? ?b] => destruct (Z.eqb_spec a b)
           | |- context [?a <=? ?b] => destruct (Z.leb_spec a b)
           end; simpl; try reflexivity; lia.
Qed.

Lemma nextToken_letter l pre c r :
  At l pre (String c r) -> IsLetter (rune_of_byte c) = true ->
  nextToken l = readKeyword l.
Proof.
  intros HAt Hc.
  destruct (letter_start _ Hc) as (Hsp & H1 & H2 & H3 & H4 & H5 & H6 & H7 & Hd).
  rewrite nextToken_nospace; rewrite (At_current _ _ _ HAt); simpl head_rune;
    [|exact Hsp].
  cbv zeta. now rewrite H1, H2, H3, H4, H5, H6, H7, Hd, Hc.
Qed.

Lemma keyword_result_outcome kw l' : keyword_outcome (keyword_result kw l') kw l'.
Proof.
  unfold keyword_outcome, keyword_result.
  repeat case_decide; subst; repeat split; intros; try reflexivity;
    try discriminate; try congruence; intuition congruence.
Qed.

Lemma nextToken_run_of_letters l pre kw rest :
  At l pre (kw +:+ rest) -> kw <> "" ->
  all_runes IsLetter kw = true -> IsLetter (head_rune rest) = false ->
  exists l', nextToken l = keyword_result (run_text kw rest) l'
             /\ At l' (pre +:+ kw) rest.
Proof.
  intros HAt Hne Hkw Hstop.
  destruct kw as [|c kw]; [congruence|]. rewrite app_cons in HAt.
  simpl in Hkw. apply andb_true_iff in Hkw as [Hc Hkw].
  rewrite (nextToken_letter _ _ _ _ HAt Hc).
  destruct (readKeyword_At _ _ _ _ HAt Hc) as (l' & Hl' & HAt').
  assert (Hspan : span IsLetter (String c (kw +:+ rest)) = (String c kw, rest)).
  { rewrite <- app_cons. apply span_run; [|exact Hstop]. simpl. now rewrite Hc, Hkw. }
  rewrite Hspan in Hl', HAt'. simpl fst in *. simpl snd in *. eauto.
Qed.

(** X4.  A keyword is the longest run of letters, compared as a whole and
    by exact case: followed by a byte that is not a letter, the run gives a
    Boolean token when it is [true] or [false], a Null token when it is
    [null], and otherwise the lexer panics with "Unexpected keyword: " and
    the whole run. *)
Theorem keyword_scan l pre kw rest :
  At l pre (kw +:+ rest) -> kw <> "" ->
  all_runes IsLetter kw = true ->
  nonempty rest = true -> IsLetter (head_rune rest) = false ->
  exists l', keyword_outcome (nextToken l) kw l' /\ At l' (pre +:+ kw) rest.
Proof.
  intros HAt Hne Hkw Hrest Hstop.
  destruct (nextToken_run_of_letters l pre kw rest HAt Hne Hkw Hstop)
    as (l' & H & HAt').
  exists l'. split; [|exact HAt']. rewrite H.
  destruct rest; [discriminate|]. apply keyword_result_outcome.
Qed.

Lemma keyword_scan_witness :
  nextToken (NewLexer "True,") = Panic "Unexpected keyword: True".
Proof.
  destruct (keyword_scan (NewLexer "True,") "" "True" ",") as (l' & (_ & _ & H) & _).
  - unfold At. repeat split; vm_compute; reflexivity.
  - discriminate.
  - reflexivity.
  - reflexivity.
  - reflexivity.
  - apply H; discriminate.
Defined.

(** ** Runs that reach the end of the input *)

(** X5.  A number that runs up to the end of the input loses its last
    byte: the Number token holds the run without it. *)
Theorem number_at_end_loses_last_byte l pre c run :
  At l pre (String c run) ->
  IsDigit (rune_of_byte c) || (rune_of_byte c =? r_minus) = true ->
  all_runes inNumber run = true ->
  exists l',
    nextToken l = Ok (mkToken TokenNumber (chop (String c run)), l')
    /\ At l' (pre +:+ String c run) "".
Proof.
  intros HAt Hc Hrun. rewrite <- (app_nil_r (String c run)) in HAt.
  exact (nextToken_number l pre c run "" HAt Hc Hrun eq_refl).
Qed.

Lemma number_at_end_loses_last_byte_witness :
  exists l', nextToken (NewLexer "123") = Ok (mkToken TokenNumber "12", l').
Proof.
  destruct (number_at_end_loses_last_byte (NewLexer "123") "" "1" "23") as (l' & H & _).
  - unfold At. repeat split; vm_compute; reflexivity.
  - reflexivity.
  - reflexivity.
  - exists l'. exact H.
Defined.

(** X6.  A run of letters that reaches the end of the input loses its last
    byte before it is compared: there [true] is read as [tru] and panics,
    and [nulll] is read as [null]. *)
Theorem keyword_at_end_loses_last_byte l pre kw :
  At l pre kw -> kw <> "" -> all_runes IsLetter kw = true ->
  exists l', keyword_outcome (nextToken l) (chop kw) l' /\ At l' (pre +:+ kw) "".
Proof.
  intros HAt Hne Hkw. rewrite <- (app_nil_r kw) in HAt.
  destruct (nextToken_run_of_letters l pre kw "" HAt Hne Hkw eq_refl)
    as (l' & H & HAt').
  exists l'. split; [|exact HAt']. rewrite H. apply keyword_result_outcome.
Qed.

Lemma keyword_at_end_loses_last_byte_witness :
  nextToken (NewLexer "true") = Panic "Unexpected keyword: tru"
  /\ exists l', nextToken (NewLexer "nulll") = Ok (mkToken TokenNull "null", l').
Proof.
  split.
  - destruct (keyword_at_end_loses_last_byte (NewLexer "true") "" "true")
      as (l' & (_ & _ & H) & _).
    + unfold At. repeat split; vm_compute; reflexivity.
    + discriminate.
    + reflexivity.
    + apply H; discriminate.
  - destruct (keyword_at_end_loses_last_byte (NewLexer "nulll") "" "nulll")
      as (l' & (_ & H & _) & _).
    + unfold At. repeat split; vm_compute; reflexivity.
    + discriminate.
    + reflexivity.
    + exists l'. apply H. reflexivity.
Defined.

(** ** String literals: zero bytes and bytes that are not ASCII *)

(** X7.  A zero byte ends a string literal as a quote does: the token
    holds what precedes it, and the lexer goes on after the zero byte. *)
Theorem zero_byte_ends_string l pre body rest :
  At l pre (String quote (body +:+ String (byte_of_Z 0) rest)) ->
  all_runes inString body = true ->
  exists l',
    nextToken l = Ok (mkToken TokenString (written body), l')
    /\ At l' (pre +:+ String quote (body +:+ String (byte_of_Z 0) "")) rest.
Proof.
  intros HAt Hbody. rewrite (nextToken_quote _ _ _ HAt).
  destruct (readString_At _ _ _ _ HAt) as (l' & Hl' & HAt').
  rewrite (span_run inString body (String (byte_of_Z 0) rest) Hbody eq_refl)
    in Hl', HAt'.
  simpl in Hl', HAt'. exists l'. split; [now rewrite Hl'|].
  now rewrite app_cons, app_nil_l in HAt'.
Qed.

Lemma zero_byte_ends_string_witness :
  exists l',
    nextToken (NewLexer (String quote ("ab" +:+ String (byte_of_Z 0) "cd")))
    = Ok (mkToken TokenString "ab", l').
Proof.
  destruct (zero_byte_ends_string
              (NewLexer (String quote ("ab" +:+ String (byte_of_Z 0) "cd")))
              "" "ab" "cd") as (l' & H & _).
  - unfold At. repeat split; vm_compute; reflexivity.
  - reflexivity.
  - exists l'. exact H.
Defined.

Lemma utf8_encode_byte c :
  utf8_encode (rune_of_byte c)
  = if IsASCII (rune_of_byte c) then String c ""
    else String (byte_of_Z (if rune_of_byte c <? 192 then 194 else 195))
           (String (byte_of_Z (if rune_of_byte c <? 192 then rune_of_byte c
                               else rune_of_byte c - 64)) "").
Proof. destruct c as [[] [] [] [] [] [] [] []]; vm_compute; reflexivity. Qed.

Lemma high_byte_inString c :
  IsASCII (rune_of_byte c) = false -> inString (rune_of_byte c) = true.
Proof.
  unfold IsASCII, inString, r_quote. intros H%Z.ltb_ge.
  destruct (Z.eqb_spec (rune_of_byte c) 34); [lia|].
  destruct (Z.eqb_spec (rune_of_byte c) 0); [lia|reflexivity].
Qed.

(** X8.  Bytes are written one by one as runes, so a byte that is not
    ASCII comes out as two: a byte [b] from 0x80 to 0xBF as 0xC2 and [b],
    a byte from 0xC0 to 0xFF as 0xC3 and [b - 0x40]. *)
Theorem high_byte_is_written_as_two l pre c rest :
  At l pre (String quote (String c (String quote rest))) ->
  IsASCII (rune_of_byte c) = false ->
  exists l',
    nextToken l
    = Ok (mkToken TokenString
            (String (byte_of_Z (if rune_of_byte c <? 192 then 194 else 195))
               (String (byte_of_Z (if rune_of_byte c <? 192 then rune_of_byte c
                                   else rune_of_byte c - 64)) "")), l').
Proof.
  intros HAt Hc.
  destruct (nextToken_string l pre (String c "") rest HAt) as (l' & H & _).
  { simpl. now rewrite (high_byte_inString c Hc). }
  exists l'. rewrite H. simpl written. rewrite utf8_encode_byte, Hc.
  reflexivity.
Qed.

Lemma high_byte_is_written_as_two_witness :
  exists l',
    nextToken (NewLexer (String quote (String (byte_of_Z 233) (String quote ""))))
    = Ok (mkToken TokenString (String (byte_of_Z 195) (String (byte_of_Z 169) "")), l').
Proof.
  destruct (high_byte_is_written_as_two
              (NewLexer (String quote (String (byte_of_Z 233) (String quote ""))))
              "" (byte_of_Z 233) "") as (l' & H).
  - unfold At. repeat split; vm_compute; reflexivity.
  - reflexivity.
  - exists l'. exact H.
Defined.

Lemma written_length s :
  String.length (written s) = (String.length s + count_high s)%nat.
Proof.
  induction s as [|c s IH]; [reflexivity|].
  simpl. rewrite utf8_encode_byte.
  destruct (IsASCII (rune_of_byte c)); rewrite !app_cons, app_nil_l; simpl;
    rewrite IH; lia.
Qed.

(** X9.  The payload of a string literal is as long as its source text
    plus one byte for each byte of it that is not ASCII. *)
Theorem string_payload_length l pre body rest :
  At l pre (String quote (body +:+ String quote rest)) ->
  all_runes inString body = true ->
  exists t l',
    nextToken l = Ok (t, l') /\ Type_ t = TokenString
    /\ String.length (Value t) = (String.length body + count_high body)%nat.
Proof.
  intros HAt Hbody.
  destruct (nextToken_string l pre body rest HAt Hbody) as (l' & H & _).
  eexists _, l'. split; [exact H|]. split; [reflexivity|]. apply written_length.
Qed.

Lemma string_payload_length_witness :
  exists t l',
    nextToken (NewLexer (String quote ("a" +:+ String (byte_of_Z 233)
                                         (String quote ""))))
    = Ok (t, l')
    /\ Type_ t = TokenString /\ String.length (Value t) = 3%nat.
Proof.
  destruct (string_payload_length
              (NewLexer (String quote ("a" +:+ String (byte_of_Z 233)
                                         (String quote ""))))
              "" ("a" +:+ String (byte_of_Z 233) "") "")
    as (t & l' & H & Ht & Hlen).
  - unfold At. repeat split; vm_compute; reflexivity.
  - reflexivity.
  - exists t, l'. split; [exact H|]. split; [exact Ht|exact Hlen].
Defined.

(** ** What a token can hold *)

Lemma all_runes_app P a b :
  all_runes P (a +:+ b) = all_runes P a && all_runes P b.
Proof.
  induction a as [|c a IH]; [reflexivity|].
  rewrite app_cons. simpl. now rewrite IH, andb_assoc.
Qed.

Lemma utf8_encode_inString c :
  inString (rune_of_byte c) = true ->
  all_runes inString (utf8_encode (rune_of_byte c)) = true.
Proof.
  destruct c as [[] [] [] [] [] [] [] []]; vm_compute; intros H;
    first [reflexivity | discriminate H].
Qed.

Lemma written_inString body :
  all_runes inString body = true -> all_runes inString (written body) = true.
Proof.
  induction body as [|c body IH]; [reflexivity|]. simpl.
  intros [Hc Hb]%andb_true_iff.
  now rewrite all_runes_app, (utf8_encode_inString c Hc), (IH Hb).
Qed.

(** X10.  Whatever token [nextToken] returns, its text fits its type: a
    String token holds no quote and no zero byte, a Number token holds
    digits, '.' and '-' only, a Boolean token is [true] or [false], a Null
    token is [null], a punctuation token is its one byte, and the
    end-of-input token is empty. *)
Theorem token_text_fits_type s l t l' :
  reachable s l -> nextToken l = Ok (t, l') -> token_shape t.
Proof.
  intros H E. destruct (reachable_At _ _ H) as (pre & rem & HAt & _).
  rewrite (nextToken_skip _ _ _ HAt) in E.
  pose proof (skipWhitespace_At _ _ _ HAt) as HAt1.
  pose proof (skipWhitespace_stops _ _ _ HAt) as Hstop.
  set (l1 := skipWhitespace l) in *.
  set (pre1 := pre +:+ fst (span IsSpace rem)) in *.
  rewrite (nextToken_nospace l1 Hstop), (At_current _ _ _ HAt1) in E.
  destruct (snd (span IsSpace rem)) as [|c r].
  { injection E as <- _. reflexivity. }
  simpl head_rune in E. cbv zeta in E.
  repeat match type of E with
         | (if ?b then _ else _) = _ =>
             let Eb := fresh "Eb" in destruct b eqn:Eb
         end;
    try (injection E as <- _; reflexivity).
  - destruct (readString_At _ _ _ _ HAt1) as (l2 & Hl2 & _).
    rewrite Hl2 in E. injection E as <- _.
    apply written_inString, span_all.
  - assert (Hc : inNumber (rune_of_byte c) = true).
    { unfold inNumber.
      match goal with
      | Hd : IsDigit _ || _ = true |- _ =>
          apply orb_true_iff in Hd as [-> | ->]; auto using orb_true_r
      end. }
    destruct (readNumber_alphabet _ _ _ _ HAt1 Hc) as (text & l2 & Hr & Hall).
    rewrite Hr in E. injection E as <- _. exact Hall.
  - match goal with
    | Hl : IsLetter _ = true |- _ =>
        destruct (readKeyword_At _ _ _ _ HAt1 Hl) as (l2 & Hr & _)
    end.
    rewrite Hr in E. unfold keyword_result in E.
    repeat case_decide; try discriminate; injection E as <- _;
      unfold token_shape; simpl; auto.
Qed.

Lemma token_text_fits_type_witness :
  token_shape (mkToken TokenNumber "-1.5").
Proof.
  apply (token_text_fits_type " -1.5," (NewLexer " -1.5,")
           (mkToken TokenNumber "-1.5") (mkLexer " -1.5," 6 44)).
  - apply reach_new.
  - vm_compute. reflexivity.
Defined.

(** ** Calling [nextToken] again and again *)

Lemma tokens_Laid xs : forall k l,
  Laid l xs ->
  tokens (length xs + k) l = Ok (map token_of xs ++ List.repeat eof_token k)%list.
Proof.
  induction xs as [|x xs IH]; intros k l HL.
  - simpl. revert l HL. induction k as [|k IHk]; intros l HL; [reflexivity|].
    destruct (Laid_next _ _ HL) as (l' & E & HL'). simpl in *.
    rewrite E. simpl. now rewrite (IHk _ HL').
  - destruct (Laid_next _ _ HL) as (l' & E & HL'). simpl in *.
    rewrite E. simpl. now rewrite (IH _ _ HL').
Qed.

(** X11.  On a document that is a sequence of lexemes with white space in
    between, successive calls of [nextToken] return the tokens of the
    lexemes in order, and then the end-of-input token for ever. *)
Theorem tokens_of_layout items tail k :
  laid_ok items tail = true ->
  all_runes IsSpace tail = true ->
  tokens (length items + k) (NewLexer (lay items tail))
  = Ok (map (fun i => token_of (snd i)) items ++ List.repeat eof_token k)%list.
Proof.
  intros Hok Htail.
  rewrite <- (length_map snd items), <- (map_map snd token_of).
  apply tokens_Laid. exists items, tail, "".
  split; [reflexivity|]. split; [exact Hok|]. split; [exact Htail|apply NewLexer_At].
Qed.

Lemma tokens_of_layout_witness :
  tokens 5 (NewLexer (dq "{ 'k' : 10 } "))
  = Ok [mkToken TokenLeftBrace "{"; mkToken TokenString "k"; mkToken TokenColon ":";
        mkToken TokenNumber "10"; mkToken TokenRightBrace "}"].
Proof.
  apply (tokens_of_layout
           [("", LPunct PLeftBrace); (" ", LString "k"); (" ", LPunct PColon);
            (" ", LNumber "10"); (" ", LPunct PRightBrace)] " " 0);
    vm_compute; reflexivity.
Defined.

(** * Further properties of the parser *)

(** ** Inputs without a document *)

(** X12.  An input that is empty or holds white space only is rejected:
    the first token is the end of input and [parseJSON] panics with
    "Invalid JSON start". *)
Theorem blank_input_is_rejected s :
  all_runes IsSpace s = true -> parse s = Panic "Invalid JSON start".
Proof.
  intros Hs. destruct (nextToken_eof _ _ _ (NewLexer_At s) Hs) as [E _].
  unfold parse, NewParser, p_nextToken. simpl. rewrite E. reflexivity.
Qed.

Lemma blank_input_is_rejected_witness :
  parse "   " = Panic "Invalid JSON start".
Proof. apply (blank_input_is_rejected "   "). reflexivity. Defined.

(** X13.  The first significant byte decides the kind of the result: when
    parsing succeeds, that byte is '{' and the value is an object, or it
    is '[' and the value is an array. *)
Theorem result_kind_follows_first_byte s v :
  parse s = Ok v ->
  (current (skipWhitespace (NewLexer s)) = r_lbrace /\ exists o, v = VObject o)
  \/ (current (skipWhitespace (NewLexer s)) = r_lbracket /\ exists a, v = VArray a).
Proof.
  unfold parse, NewParser, p_nextToken. simpl. intros H.
  apply bind_Ok in H as (p & Hp & H).
  apply bind_Ok in Hp as ([t l'] & Hn & [= <-]).
  apply bind_Ok in H as ([v' p'] & Hj & [= <-]).
  destruct (nextToken_opener _ _ _ Hn) as [H1 H2].
  unfold parseJSON in Hj. simpl in Hj.
  destruct (Type_ t) eqn:Et; try discriminate.
  - left. split; [now apply H1|].
    apply bind_Ok in Hj as ([o q] & _ & [= <- _]). eauto.
  - right. split; [now apply H2|].
    apply bind_Ok in Hj as ([a q] & _ & [= <- _]). eauto.
Qed.

Lemma result_kind_follows_first_byte_witness :
  (current (skipWhitespace (NewLexer " [] ")) = r_lbrace
   /\ exists o, VArray [] = VObject o)
  \/ (current (skipWhitespace (NewLexer " [] ")) = r_lbracket
      /\ exists a, VArray [] = VArray a).
Proof.
  apply (result_kind_follows_first_byte " [] " (VArray [])).
  vm_compute. reflexivity.
Defined.

(** ** Every document of the grammar parses to its value *)

Lemma json_ind' (P : json -> Prop) :
  (forall b, P (JString b)) -> (forall r, P (JNumber r)) ->
  (forall b, P (JBool b)) -> P JNull ->
  (forall ms, Forall (fun m => P (snd m)) ms -> P (JObject ms)) ->
  (forall ds, Forall P ds -> P (JArray ds)) ->
  forall d, P d.
Proof.
  intros Hs Hn Hb Hnull Ho Ha. fix IH 1. intros [b|r|b| |ms|ds].
  - apply Hs.
  - apply Hn.
  - apply Hb.
  - apply Hnull.
  - apply Ho. induction ms as [|[k d] ms IHms]; constructor; [apply IH|exact IHms].
  - apply Ha. induction ds as [|d ds IHds]; constructor; [apply IH|exact IHds].
Qed.

Lemma Ahead_next p x xs :
  Ahead p (x :: xs) -> exists p', p_nextToken p = Ok p' /\ Ahead p' xs.
Proof.
  intros [_ HL]. simpl in HL. unfold p_nextToken.
  destruct (Laid_next _ _ HL) as (l' & E & HL'). rewrite E. simpl.
  eexists. split; [reflexivity|]. split; [reflexivity|exact HL'].
Qed.

Lemma Ahead_start items tail :
  laid_ok items tail = true -> all_runes IsSpace tail = true ->
  exists p, NewParser (NewLexer (lay items tail)) = Ok p
            /\ Ahead p (map snd items).
Proof.
  intros Hok Htail. unfold NewParser, p_nextToken. simpl.
  assert (HL : Laid (NewLexer (lay items tail)) (map snd items)).
  { exists items, tail, "". split; [reflexivity|]. split; [exact Hok|].
    split; [exact Htail|apply NewLexer_At]. }
  destruct (Laid_next _ _ HL) as (l' & E & HL'). rewrite E. simpl.
  eexists. split; [reflexivity|]. split; [reflexivity|exact HL'].
Qed.

(** A value never begins with a closer. *)
Lemma tokens_of_head tc d :
  exists x xs, tokens_of tc d = x :: xs
               /\ Type_ (token_of x) <> TokenRightBrace
               /\ Type_ (token_of x) <> TokenRightBracket.
Proof.
  destruct d as [b|r|b| |ms|ds]; simpl; eexists _, _;
    (split; [reflexivity|]); simpl; try (split; discriminate).
  destruct b; simpl; split; discriminate.
Qed.

(** After a member or an element: the closer, or a comma and what follows. *)
Lemma separator_closer (c : punct) msg p more :
  c = PRightBrace \/ c = PRightBracket ->
  Ahead p (LPunct c :: more) ->
  (if tokenIs p TokenComma then p_nextToken p
   else if negb (tokenIs p (Type_ (punct_token c))) then Panic msg else Ok p)
  = Ok p.
Proof.
  intros Hc [Ht _]. unfold tokenIs. simpl in Ht. rewrite Ht.
  destruct Hc as [-> | ->]; reflexivity.
Qed.

Lemma separator_comma (t : TokenType) msg p xs :
  Ahead p (LPunct PComma :: xs) ->
  exists p',
    (if tokenIs p TokenComma then p_nextToken p
     else if negb (tokenIs p t) then Panic msg else Ok p) = Ok p'
    /\ Ahead p' xs.
Proof.
  intros HA. destruct (Ahead_next _ _ _ HA) as (p' & E & HA').
  destruct HA as [Ht _]. unfold tokenIs. simpl in Ht. rewrite Ht. simpl. eauto.
Qed.

Lemma separator_between (c : punct) (tc : bool) (chunks : list (list lexeme)) msg p more :
  c = PRightBrace \/ c = PRightBracket ->
  Ahead p (match chunks with
           | [] => if tc then [LPunct PComma] else []
           | _ :: _ => LPunct PComma :: joined tc chunks
           end ++ LPunct c :: more) ->
  exists p',
    (if tokenIs p TokenComma then p_nextToken p
     else if negb (tokenIs p (Type_ (punct_token c))) then Panic msg else Ok p)
    = Ok p'
    /\ Ahead p' (joined tc chunks ++ LPunct c :: more).
Proof.
  intros Hc HA. destruct chunks as [|ch chunks]; [destruct tc|].
  - exact (separator_comma _ msg p _ HA).
  - exists p. split; [exact (separator_closer c msg p more Hc HA)|exact HA].
  - exact (separator_comma _ msg p _ HA).
Qed.

Lemma parseArray_loop_elems tc ds :
  Forall (parses tc) ds ->
  forall f arr p more,
    (1 + length ds + list_sum (map need ds) <= f)%nat ->
    Ahead p (joined tc (map (tokens_of tc) ds) ++ LPunct PRightBracket :: more) ->
    exists p',
      parseArray_loop f arr p = Ok ((arr ++ map value_of ds)%list, p')
      /\ Ahead p' (LPunct PRightBracket :: more).
Proof.
  induction 1 as [|d r Hd _ IH]; intros f arr p more Hf HA.
  - destruct f as [|f]; [lia|]. simpl in HA |- *.
    destruct HA as [Ht HL]. unfold tokenIs. simpl in Ht. rewrite Ht.
    rewrite bool_decide_eq_true_2 by reflexivity.
    exists p. rewrite List.app_nil_r. split; [reflexivity|]. now split.
  - destruct f as [|f]; [simpl in Hf; lia|].
    cbn [map joined] in HA. rewrite <- List.app_assoc in HA.
    destruct (tokens_of_head tc d) as (x & xs & Ex & _ & Hx).
    assert (Ht : token p = token_of x) by (destruct HA as [Ht _]; now rewrite Ex in Ht).
    simpl in Hf.
    destruct (Hd f p _ ltac:(lia) HA) as (p1 & E1 & HA1).
    destruct (separator_between PRightBracket tc (map (tokens_of tc) r)
                "Expected ',' or ']' in array" p1 more (or_intror eq_refl) HA1)
      as (p2 & E2 & HA2).
    destruct (IH f (arr ++ [value_of d])%list p2 more ltac:(lia) HA2)
      as (p3 & E3 & HA3).
    exists p3. split; [|exact HA3].
    simpl. unfold tokenIs at 1. rewrite Ht.
    rewrite bool_decide_eq_false_2 by exact Hx.
    rewrite E1. simpl. simpl in E2. rewrite E2. simpl. rewrite E3.
    now rewrite <- List.app_assoc.
Qed.

Lemma parseObject_loop_members_of tc ms :
  Forall (fun m => parses tc (snd m)) ms ->
  forall f obj p more,
    (1 + length ms + list_sum (map (fun m => need (snd m)) ms) <= f)%nat ->
    Ahead p (joined tc (map (fun m => LString (fst m) :: LPunct PColon
                                      :: tokens_of tc (snd m)) ms)
             ++ LPunct PRightBrace :: more) ->
    exists p',
      parseObject_loop f obj p
      = Ok (store obj (map (fun m => (written (fst m), value_of (snd m))) ms), p')
      /\ Ahead p' (LPunct PRightBrace :: more).
Proof.
  induction 1 as [|[k d] r Hd _ IH]; intros f obj p more Hf HA.
  - destruct f as [|f]; [lia|]. simpl in HA |- *.
    destruct HA as [Ht HL]. unfold tokenIs. simpl in Ht. rewrite Ht.
    rewrite bool_decide_eq_true_2 by reflexivity.
    exists p. split; [reflexivity|]. now split.
  - destruct f as [|f]; [simpl in Hf; lia|].
    cbn [map joined fst snd] in HA, Hd. rewrite <- List.app_assoc in HA.
    rewrite <- !List.app_comm_cons in HA.
    assert (Ht : token p = mkToken TokenString (written k)) by (now destruct HA).
    destruct (Ahead_next _ _ _ HA) as (p1 & E1 & HA1).
    assert (Ht1 : token p1 = mkToken TokenColon ":") by (now destruct HA1).
    destruct (Ahead_next _ _ _ HA1) as (p2 & E2 & HA2).
    simpl in Hf.
    destruct (Hd f p2 _ ltac:(lia) HA2) as (p3 & E3 & HA3).
    destruct (separator_between PRightBrace tc _
                "Expected ',' or '}' in object" p3 more (or_introl eq_refl) HA3)
      as (p4 & E4 & HA4).
    destruct (IH f (<[written k := value_of d]> obj) p4 more ltac:(lia) HA4)
      as (p5 & E5 & HA5).
    exists p5. split; [|exact HA5].
    simpl. unfold tokenIs at 1 2. rewrite Ht. simpl.
    rewrite E1. simpl. unfold tokenIs at 1. rewrite Ht1. simpl.
    rewrite E2. simpl. rewrite E3. simpl. simpl in E4. rewrite E4. simpl.
    exact E5.
Qed.

Lemma all_parse tc d : parses tc d.
Proof.
  induction d as [b|r|b| |ms Hms|ds Hds] using json_ind';
    intros f p more Hf HA; (destruct f as [|f]; [simpl in Hf; lia|]).
  - simpl in HA. destruct (Ahead_next _ _ _ HA) as (p' & E & HA').
    destruct HA as [Ht _]. simpl in Ht. simpl. rewrite Ht, E. simpl. eauto.
  - simpl in HA. destruct (Ahead_next _ _ _ HA) as (p' & E & HA').
    destruct HA as [Ht _]. simpl in Ht. simpl. rewrite Ht, E. simpl. eauto.
  - simpl in HA. destruct (Ahead_next _ _ _ HA) as (p' & E & HA').
    destruct HA as [Ht _]. simpl in Ht. simpl. rewrite Ht, E.
    destruct b; simpl; eauto.
  - simpl in HA. destruct (Ahead_next _ _ _ HA) as (p' & E & HA').
    destruct HA as [Ht _]. simpl in Ht. simpl. rewrite Ht, E. simpl. eauto.
  - cbn [tokens_of need] in HA, Hf.
    rewrite <- List.app_comm_cons, <- List.app_assoc in HA.
    destruct (Ahead_next _ _ _ HA) as (p1 & E1 & HA1).
    assert (Ht : token p = mkToken TokenLeftBrace "{") by (now destruct HA).
    destruct f as [|f]; [lia|].
    destruct (parseObject_loop_members_of tc ms Hms f ∅ p1 more ltac:(lia) HA1)
      as (p2 & E2 & HA2).
    destruct (Ahead_next _ _ _ HA2) as (p3 & E3 & HA3).
    exists p3. split; [|exact HA3].
    simpl. rewrite Ht. simpl. rewrite E1. simpl. rewrite E2. simpl.
    rewrite E3. reflexivity.
  - cbn [tokens_of need] in HA, Hf.
    rewrite <- List.app_comm_cons, <- List.app_assoc in HA.
    destruct (Ahead_next _ _ _ HA) as (p1 & E1 & HA1).
    assert (Ht : token p = mkToken TokenLeftBracket "[") by (now destruct HA).
    destruct f as [|f]; [lia|].
    destruct (parseArray_loop_elems tc ds Hds f [] p1 more ltac:(lia) HA1)
      as (p2 & E2 & HA2).
    destruct (Ahead_next _ _ _ HA2) as (p3 & E3 & HA3).
    exists p3. split; [|exact HA3].
    simpl. rewrite Ht. simpl. rewrite E1. simpl. rewrite E2. simpl.
    rewrite E3. reflexivity.
Qed.

Lemma parseJSON_parseValue f p :
  Type_ (token p) = TokenLeftBrace \/ Type_ (token p) = TokenLeftBracket ->
  parseJSON f p = parseValue (S f) p.
Proof. intros [H|H]; unfold parseJSON; simpl; now rewrite H. Qed.

Lemma parse_tokens_of tc d items tail :
  is_container d = true ->
  map snd items = tokens_of tc d ->
  laid_ok items tail = true -> all_runes IsSpace tail = true ->
  parse (lay items tail) = Ok (value_of d).
Proof.
  intros Hd Hmap Hok Htail.
  destruct (Ahead_start items tail Hok Htail) as (p & Hp & HA).
  rewrite Hmap, <- (List.app_nil_r (tokens_of tc d)) in HA.
  destruct (all_parse tc d (S (need d)) p [] ltac:(lia) HA) as (p' & E & _).
  apply (parse_any_fuel _ p (need d) _ p' Hp).
  rewrite parseJSON_parseValue; [exact E|].
  destruct HA as [Ht _]. destruct d; try discriminate; simpl in Ht; rewrite Ht; auto.
Qed.

(** X14.  Every document that the productions of the README grammar build
    from the lexer's own terminals, an object or an array at the top,
    with any white space between its tokens, parses.  The terminals are
    those of [lexeme_ok] and [follow_ok]: a string is a quote, bytes that
    are neither a quote nor zero, and a quote, with no escapes; a number
    is a run of digits, '.' and '-' that begins with a digit or '-' and
    is followed by another byte; [true], [false] and [null] are followed
    by a byte that is no letter.  The result is [value_of] the document:
    for a string its bytes written as runes (the text itself when it is
    ASCII, two bytes for each byte that is not), for a number the first
    result of [ParseFloat] on its text (0 when the text is no number),
    the elements of an array in their order, and for an object the
    members stored one after the other into the map. *)
Theorem grammar_documents_parse d items tail :
  is_container d = true ->
  map snd items = tokens_of false d ->
  laid_ok items tail = true -> all_runes IsSpace tail = true ->
  parse (lay items tail) = Ok (value_of d).
Proof. apply parse_tokens_of. Qed.

Lemma grammar_documents_parse_witness :
  parse (dq "[1, {'a':true, 'a':null}, 'x']")
  = Ok (VArray [VNumber (float64_of_Z 1); VObject (<["a" := VNil]> ∅); VString "x"]).
Proof.
  apply (grammar_documents_parse
           (JArray [JNumber "1"; JObject [("a", JBool true); ("a", JNull)]; JString "x"])
           [("", LPunct PLeftBracket); ("", LNumber "1"); ("", LPunct PComma);
            (" ", LPunct PLeftBrace); ("", LString "a"); ("", LPunct PColon);
            ("", LKeyword "true"); ("", LPunct PComma); (" ", LString "a");
            ("", LPunct PColon); ("", LKeyword "null"); ("", LPunct PRightBrace);
            ("", LPunct PComma); (" ", LString "x"); ("", LPunct PRightBracket)] "");
    vm_compute; reflexivity.
Defined.

(** X15.  The same documents written with a comma before every closer of
    a container that is not empty parse to the same values. *)
Theorem trailing_commas_change_nothing d items tail :
  is_container d = true ->
  map snd items = tokens_of true d ->
  laid_ok items tail = true -> all_runes IsSpace tail = true ->
  parse (lay items tail) = Ok (value_of d).
Proof. apply parse_tokens_of. Qed.

Lemma trailing_commas_change_nothing_witness :
  parse (dq "[1,{'a':null,},]")
  = Ok (VArray [VNumber (float64_of_Z 1); VObject (<["a" := VNil]> ∅)]).
Proof.
  apply (trailing_commas_change_nothing
           (JArray [JNumber "1"; JObject [("a", JNull)]])
           [("", LPunct PLeftBracket); ("", LNumber "1"); ("", LPunct PComma);
            ("", LPunct PLeftBrace); ("", LString "a"); ("", LPunct PColon);
            ("", LKeyword "null"); ("", LPunct PComma); ("", LPunct PRightBrace);
            ("", LPunct PComma); ("", LPunct PRightBracket)] "");
    vm_compute; reflexivity.
Defined.

(** ** Repeated keys in a document *)

(** C5, as the code has it.  Take a document that is an object written in
    the lexer's own tokens: members [fst m : snd m] separated by commas,
    with or without a comma before the closing brace, the key of a member
    being the bytes [fst m] between its quotes and its value any document
    of the grammar.  The document parses, and the map that is
    returned holds, for every key text as the lexer writes it
    ([written (fst m)], which is [fst m] itself for an ASCII key), the
    value of the last member with that key text, and nothing for any
    other key.  Keys are compared as they are read: no escape sequence is
    decoded. *)
Theorem last_occurrence_wins tc ms items tail :
  map snd items = tokens_of tc (JObject ms) ->
  laid_ok items tail = true ->
  all_runes IsSpace tail = true ->
  exists obj,
    parse (lay items tail) = Ok (VObject obj)
    /\ (forall k,
          obj !! k
          = last_value k (map (fun m => (written (fst m), value_of (snd m))) ms))
    /\ (Forall (fun m => all_runes IsASCII (fst m) = true) ms ->
        forall k,
          obj !! k = last_value k (map (fun m => (fst m, value_of (snd m))) ms)).
Proof.
  intros Hmap Hok Htail.
  exists (store ∅ (map (fun m => (written (fst m), value_of (snd m))) ms)).
  assert (Hk : forall k,
             store ∅ (map (fun m => (written (fst m), value_of (snd m))) ms) !! k
             = last_value k (map (fun m => (written (fst m), value_of (snd m))) ms)).
  { intros k. rewrite store_lookup, lookup_empty. now destruct (last_value k _). }
  split; [exact (parse_tokens_of tc (JObject ms) items tail eq_refl Hmap Hok Htail)|].
  split; [exact Hk|].
  intros Hascii k. rewrite Hk. f_equal. clear -Hascii.
  induction Hascii as [|m r Hm _ IH]; [reflexivity|].
  simpl. now rewrite (written_ascii _ Hm), IH.
Qed.

Lemma last_occurrence_wins_witness :
  exists obj,
    parse (dq "{'a':1, 'b':true, 'a':2}") = Ok (VObject obj)
    /\ forall k, obj !! k
                 = last_value k [("a", VNumber (float64_of_Z 1));
                                 ("b", VBool true);
                                 ("a", VNumber (float64_of_Z 2))].
Proof.
  destruct (last_occurrence_wins false
              [("a", JNumber "1"); ("b", JBool true); ("a", JNumber "2")]
              [("", LPunct PLeftBrace); ("", LString "a"); ("", LPunct PColon);
               ("", LNumber "1"); ("", LPunct PComma); (" ", LString "b");
               ("", LPunct PColon); ("", LKeyword "true"); ("", LPunct PComma);
               (" ", LString "a"); ("", LPunct PColon); ("", LNumber "2");
               ("", LPunct PRightBrace)] "")
    as (obj & H1 & H2 & _).
  - reflexivity.
  - vm_compute. reflexivity.
  - reflexivity.
  - exists obj. split; [exact H1|exact H2].
Defined.

(** Two keys that the specification reads as one, [a] and its escape, are
    two keys for the code, and the first keeps its value; a key that is
    not ASCII is stored under another text than the one in the input. *)
Lemma escaped_key_is_another_key :
  let e := String (byte_of_Z 195) (String (byte_of_Z 169) "") in
  parse (dq "{'a':1,'\u0061':2}")
  = Ok (VObject (<["\u0061" := VNumber (float64_of_Z 2)]>
                   (<["a" := VNumber (float64_of_Z 1)]> ∅)))
  /\ (<["\u0061" := VNumber (float64_of_Z 2)]>
        (<["a" := VNumber (float64_of_Z 1)]> (∅ : gmap string value))) !! "a"
     = Some (VNumber (float64_of_Z 1))
  /\ parse (dq "{'" +:+ e +:+ dq "':1,'" +:+ e +:+ dq "':2}")
     = Ok (VObject (<[written e := VNumber (float64_of_Z 2)]> ∅))
  /\ (<[written e := VNumber (float64_of_Z 2)]> (∅ : gmap string value)) !! e = None
  /\ String.length e = 2%nat /\ String.length (written e) = 4%nat.
Proof. repeat split; vm_compute; reflexivity. Qed.
